(** * SimpleConfigTool: the class model builder and the config delta engine

    A shallow embedding of [src/main.py].  Python exceptions become an error
    monad, [for] loops become a fold that threads the loop's state, the
    objects the code mutates ([ClassInfo] instances, the dictionaries of the
    delta engine) live in explicit stores, and every class of the source is a
    module holding its methods under their own names. *)

From stdpp Require Import base option list strings gmap fin_maps relations.
From Stdlib Require Import ZArith.

Set Default Proof Using "Type".
Set Warnings "-register-all".
Open Scope string_scope.
Open Scope list_scope.

(** ** Exceptions and outcomes *)

(** The exceptions the modelled code can raise.  [RecursionError] is what the
    interpreter raises when calls nest deeper than its recursion limit;
    [AttributeError] what it raises for a method the object does not have.
    [DanglingRef] is not a Python exception: it is the outcome of following a
    reference that denotes no object, which Python's object model excludes;
    the stores built here never contain one (see [wf_store]). *)
Inductive exn : Set :=
  | KeyError | ValueError | TypeError | StopIteration | RecursionError
  | AttributeError
  | DanglingRef.

Inductive outcome (A : Type) : Type :=
  | Ok (a : A)
  | Raise (e : exn).
Arguments Ok {A} a.
Arguments Raise {A} e.

#[global] Instance outcome_ret : MRet outcome := λ A, @Ok A.
#[global] Instance outcome_bind : MBind outcome := λ A B f m,
  match m with Ok a => f a | Raise e => Raise e end.

(** [for x in xs: body], threading the state [s] the body updates; the first
    exception leaves the loop. *)
Fixpoint for_each {A S : Type} (body : S → A → outcome S) (xs : list A)
    (s : S) : outcome S :=
  match xs with
  | [] => Ok s
  | x :: rest => s' ← body s x; for_each body rest s'
  end.

(** The [except] clauses of [main] over the exceptions above: only
    [ValueError] is caught (and reported as a data error). *)
Definition main_catches (e : exn) : bool :=
  match e with ValueError => true | _ => false end.

(** ** Config delta engine *)

(** Dictionaries of the delta engine are objects on a heap, addressed by
    location, so that copying and in-place mutation can be told apart. *)
Abbreviation loc := nat.
Abbreviation dict_heap V := (gmap nat (gmap string V)).

Section delta_engine.
Context {V : Type}.

(** [d[key]] *)
Definition getitem (d : gmap string V) (key : string) : outcome V :=
  match d !! key with Some v => Ok v | None => Raise KeyError end.

Record Addition := { add_key : string; add_value : V }.
Record Update := { upd_key : string; upd_from : V; upd_to : V }.
Record Delta := {
  additions : list Addition;
  deletions : list string;
  updates : list Update
}.

Definition append_addition (delta : Delta) (a : Addition) : Delta :=
  {| additions := additions delta ++ [a];
     deletions := deletions delta; updates := updates delta |}.
Definition append_deletion (delta : Delta) (key : string) : Delta :=
  {| additions := additions delta;
     deletions := deletions delta ++ [key]; updates := updates delta |}.
Definition append_update (delta : Delta) (u : Update) : Delta :=
  {| additions := additions delta;
     deletions := deletions delta; updates := updates delta ++ [u] |}.

(** [d.copy()]: a new object with the same top-level bindings. *)
Definition dict_copy (h : dict_heap V) (d : loc)
  : outcome (dict_heap V * loc) :=
  match h !! d with
  | Some m => let r := fresh (dom h) in Ok (<[r := m]> h, r)
  | None => Raise DanglingRef
  end.
(** [d.pop(key, None)] *)
Definition dict_pop (d : loc) (key : string) (h : dict_heap V)
  : dict_heap V :=
  alter (delete key) d h.
(** [d[key] = v] *)
Definition dict_setitem (d : loc) (key : string) (v : V) (h : dict_heap V)
  : dict_heap V :=
  alter (<[key := v]>) d h.
End delta_engine.

Arguments Addition : clear implicits.
Arguments Update : clear implicits.
Arguments Delta : clear implicits.

Module DeltaJSONGenerator.
Section generate.
Context {V : Type}.
(** Python's [==] on the values of a configuration; [!=] is its negation. *)
Variable py_eq : V → V → bool.
(** The order in which a [for] loop visits a [set] of keys: any order, each
    key once (the hypothesis [iter_perm] of the properties below). *)
Variable iter : gset string → list string.

(** The two configurations are only read, so they are passed by content. *)
Definition generate (config patched_config : gmap string V)
  : outcome (Delta V) :=
  let delta := {| additions := []; deletions := []; updates := [] |} in
  let config_keys := dom config in
  let patched_keys := dom patched_config in
  delta ← for_each (λ delta key,
      v ← getitem patched_config key;
      Ok (append_addition delta {| add_key := key; add_value := v |}))
    (iter (patched_keys ∖ config_keys)) delta;
  delta ← for_each (λ delta key, Ok (append_deletion delta key))
    (iter (config_keys ∖ patched_keys)) delta;
  delta ← for_each (λ delta key,
      a ← getitem config key;
      b ← getitem patched_config key;
      if negb (py_eq a b) then
        from ← getitem config key;
        to ← getitem patched_config key;
        Ok (append_update delta
              {| upd_key := key; upd_from := from; upd_to := to |})
      else Ok delta)
    (iter (config_keys ∩ patched_keys)) delta;
  Ok delta.
End generate.
End DeltaJSONGenerator.

Module ResPatchedConfigGenerator.
Section generate.
Context {V : Type}.

Definition generate (h : dict_heap V) (config : loc) (delta : Delta V)
  : outcome (dict_heap V * loc) :=
  '(h, result) ← dict_copy h config;
  h ← for_each (λ h key, Ok (dict_pop result key h)) (deletions delta) h;
  h ← for_each (λ h update,
      Ok (dict_setitem result (upd_key update) (upd_to update) h))
    (updates delta) h;
  h ← for_each (λ h addition,
      Ok (dict_setitem result (add_key addition) (add_value addition) h))
    (additions delta) h;
  Ok (h, result).
End generate.
End ResPatchedConfigGenerator.

(** ** Strings: the two [str] operations the parser uses *)

(** [sub in s] *)
Fixpoint contains (sub s : string) : bool :=
  String.prefix sub s ||
  match s with
  | EmptyString => false
  | String _ s' => contains sub s'
  end.

Fixpoint skip (n : nat) (s : string) : string :=
  match n, s with
  | S n', String _ s' => skip n' s'
  | _, _ => s
  end.

(** The text before and after the leftmost occurrence of [sep] in [s]. *)
Fixpoint cut (sep s : string) : option (string * string) :=
  if String.prefix sep s then Some (EmptyString, skip (String.length sep) s)
  else match s with
       | EmptyString => None
       | String c s' =>
           match cut sep s' with
           | Some (a, b) => Some (String c a, b)
           | None => None
           end
       end.

Fixpoint split_fuel (fuel : nat) (sep s : string) : list string :=
  match fuel with
  | 0 => [s]
  | S fuel' =>
      match cut sep s with
      | Some (a, b) => a :: split_fuel fuel' sep b
      | None => [s]
      end
  end.

(** [s.split(sep)] for a non-empty [sep]: cut at the occurrences of [sep]
    from left to right.  Each cut consumes at least one character, so the
    length of [s] bounds their number (see [split_unfold]). *)
Definition split (sep s : string) : list string :=
  split_fuel (S (String.length s)) sep s.

(** [sep.join(parts)] *)
Fixpoint join (sep : string) (parts : list string) : string :=
  match parts with
  | [] => EmptyString
  | [p] => p
  | p :: rest => p +:+ sep +:+ join sep rest
  end.

(** ** The class model *)

(** What [Element.get(key)] returns: the attribute's text, or [None] when the
    element has no such attribute. *)
Abbreviation attrval := (option string).

(** The attributes of one XML element. *)
Abbreviation xml_attrib := (gmap string string).

(** [elem.get(key)] and [elem.get(key, default)] *)
Definition get (elem : xml_attrib) (key : string) : attrval := elem !! key.
Definition get_default (elem : xml_attrib) (key dflt : string) : string :=
  default dflt (elem !! key).

(** A [Class] element with its [Attribute] children, and the document as the
    two [findall] calls of [parse_xml] see it, in document order. *)
Record ClassElem := {
  class_attrib : xml_attrib;
  attribute_elems : list xml_attrib
}.
Record Document := {
  class_elems : list ClassElem;
  aggregation_elems : list xml_attrib
}.

Module Attribute.
Record t := { name : attrval; type : attrval }.
End Attribute.

(** A reference to a [ClassInfo] object.  Every object the parser keeps is
    stored in [self.classes] under its own name, and an object displaced by a
    later declaration of the same name is referenced by nothing: so the
    dictionary is the object store and a reference is the key of the object
    it denotes. *)
Abbreviation ref := (option string).

Module ClassInfo.
Record t := {
  name : attrval;
  is_root : bool;
  documentation : string;
  attributes : list Attribute.t;
  children : list ref;
  min : string;
  max : string
}.

(** [ClassInfo.__init__] *)
Definition init (name : attrval) (is_root : bool) (documentation : string)
  : t :=
  {| name := name; is_root := is_root; documentation := documentation;
     attributes := []; children := []; min := "0"; max := "0" |}.

(** [self.attributes.append(a)] *)
Definition append_attribute (self : t) (a : Attribute.t) : t :=
  {| name := name self; is_root := is_root self;
     documentation := documentation self;
     attributes := attributes self ++ [a]; children := children self;
     min := min self; max := max self |}.

(** [self.children.append(child)] *)
Definition append_child (child : ref) (self : t) : t :=
  {| name := name self; is_root := is_root self;
     documentation := documentation self;
     attributes := attributes self; children := children self ++ [child];
     min := min self; max := max self |}.

(** [self.min = min_val; self.max = max_val] *)
Definition set_min_max (min_val max_val : string) (self : t) : t :=
  {| name := name self; is_root := is_root self;
     documentation := documentation self;
     attributes := attributes self; children := children self;
     min := min_val; max := max_val |}.
End ClassInfo.

(** A Python [dict] keyed by class name, in insertion order: assigning to a
    key that is present replaces the value where it stands. *)
Abbreviation store := (list (option string * ClassInfo.t)).

Fixpoint dict_get (key : attrval) (d : store) : option ClassInfo.t :=
  match d with
  | [] => None
  | (k, v) :: d' => if decide (k = key) then Some v else dict_get key d'
  end.

(** [d[key] = v] *)
Fixpoint dict_set (key : attrval) (v : ClassInfo.t) (d : store) : store :=
  match d with
  | [] => [(key, v)]
  | (k, v') :: d' =>
      if decide (k = key) then (k, v) :: d' else (k, v') :: dict_set key v d'
  end.

(** [d[key]] as an expression: the reference to the object stored there. *)
Definition dict_getitem (d : store) (key : attrval) : outcome ref :=
  match dict_get key d with Some _ => Ok key | None => Raise KeyError end.

(** Reading the object a reference denotes. *)
Definition deref (d : store) (r : ref) : outcome ClassInfo.t :=
  match dict_get r d with Some o => Ok o | None => Raise DanglingRef end.

(** Updating in place the object a reference denotes. *)
Fixpoint mutate (r : ref) (f : ClassInfo.t → ClassInfo.t) (d : store)
  : store :=
  match d with
  | [] => []
  | (k, o) :: d' =>
      if decide (k = r) then (k, f o) :: d' else (k, o) :: mutate r f d'
  end.

(** Lines 79 to 83 of [parse_xml]: the bounds a multiplicity denotes.
    [".." in None] is a [TypeError]; unpacking a list that has not exactly two
    items into [min_val, max_val] is a [ValueError]. *)
Definition parse_multiplicity (multiplicity : attrval)
  : outcome (string * string) :=
  match multiplicity with
  | None => Raise TypeError
  | Some m =>
      if contains ".." m then
        match split ".." m with
        | [min_val; max_val] => Ok (min_val, max_val)
        | _ => Raise ValueError
        end
      else Ok (m, m)
  end.

(** The dictionary [parse_xml] appends to [self.aggregations]. *)
Record Aggregation := {
  source : attrval;
  target : attrval;
  sourceMultiplicity : attrval;
  targetMultiplicity : attrval
}.

Module ModelParser.
Record t := { classes : store; aggregations : list Aggregation }.

(** The body of the first loop: one [Class] element. *)
Definition parse_class (classes : store) (class_elem : ClassElem) : store :=
  let name := get (class_attrib class_elem) "name" in
  let is_root :=
    bool_decide (get (class_attrib class_elem) "isRoot" = Some "true") in
  let documentation :=
    get_default (class_attrib class_elem) "documentation" EmptyString in
  let class_info := ClassInfo.init name is_root documentation in
  let class_info :=
    foldl (λ class_info attr_elem,
        let attr_name := get attr_elem "name" in
        let attr_type := get attr_elem "type" in
        ClassInfo.append_attribute class_info
          {| Attribute.name := attr_name; Attribute.type := attr_type |})
      class_info (attribute_elems class_elem) in
  dict_set name class_info classes.

(** The body of the second loop: one [Aggregation] element. *)
Definition parse_aggregation (agg_elem : xml_attrib) : Aggregation :=
  {| source := get agg_elem "source";
     target := get agg_elem "target";
     sourceMultiplicity := get agg_elem "sourceMultiplicity";
     targetMultiplicity := get agg_elem "targetMultiplicity" |}.

(** The body of the third loop: linking one aggregation edge. *)
Definition link (classes : store) (agg : Aggregation) : outcome store :=
  source_class ← dict_getitem classes (source agg);
  target_class ← dict_getitem classes (target agg);
  let classes :=
    mutate target_class (ClassInfo.append_child source_class) classes in
  let multiplicity := sourceMultiplicity agg in
  '(min_val, max_val) ← parse_multiplicity multiplicity;
  Ok (mutate source_class (ClassInfo.set_min_max min_val max_val) classes).

Definition parse_xml (self : t) (xml : Document) : outcome t :=
  let classes := foldl parse_class (classes self) (class_elems xml) in
  let aggregations :=
    foldl (λ aggs agg_elem, aggs ++ [parse_aggregation agg_elem])
      (aggregations self) (aggregation_elems xml) in
  classes ← for_each link aggregations classes;
  Ok {| classes := classes; aggregations := aggregations |}.

(** [ModelParser(xml_path)], on the parsed document. *)
Definition new (xml : Document) : outcome t :=
  parse_xml {| classes := []; aggregations := [] |} xml.

(** [next(cls for cls in self.classes.values() if cls.is_root)] *)
Definition get_root_class (self : t) : outcome ref :=
  match List.find (λ kv, ClassInfo.is_root kv.2) (classes self) with
  | Some (k, _) => Ok k
  | None => Raise StopIteration
  end.
End ModelParser.

(** An [xml.etree] element: tag, text and sub-elements. *)
Inductive Element : Type :=
  | Elem (tag : attrval) (text : option string) (subelements : list Element).

Definition element_append (e child : Element) : Element :=
  match e with Elem tag text subs => Elem tag text (subs ++ [child]) end.

(** [str(v)] for an attribute value. *)
Definition str (v : attrval) : string := default "None" v.

Module ConfigXMLGenerator.
(** [limit] is the interpreter's recursion limit, counted in nested calls
    of [generate]. *)
Fixpoint generate (limit : nat) (classes : store) (class_info : ref)
  : outcome Element :=
  match limit with
  | 0 => Raise RecursionError
  | S limit' =>
      self ← deref classes class_info;
      let root := Elem (ClassInfo.name self) None [] in
      let root :=
        foldl (λ root attr,
            element_append root
              (Elem (Attribute.name attr) (Some (str (Attribute.type attr)))
                 []))
          root (ClassInfo.attributes self) in
      for_each (λ root child,
          child_elem ← generate limit' classes child;
          Ok (element_append root child_elem))
        (ClassInfo.children self) root
  end.
End ConfigXMLGenerator.

Module MetaJSONGenerator.
Record Param := { name : attrval; type : attrval }.
Record Entry := {
  class : attrval;
  documentation : string;
  isRoot : bool;
  max : string;
  min : string;
  parameters : list Param
}.

Definition append_parameter (entry : Entry) (p : Param) : Entry :=
  {| class := class entry; documentation := documentation entry;
     isRoot := isRoot entry; max := max entry; min := min entry;
     parameters := parameters entry ++ [p] |}.

Definition generate (classes : store) : outcome (list Entry) :=
  for_each (λ meta kv,
      let cls := kv.2 in
      let entry :=
        {| class := ClassInfo.name cls;
           documentation := ClassInfo.documentation cls;
           isRoot := ClassInfo.is_root cls;
           max := ClassInfo.max cls;
           min := ClassInfo.min cls;
           parameters := [] |} in
      let entry :=
        foldl (λ entry attr,
            append_parameter entry
              {| name := Attribute.name attr; type := Attribute.type attr |})
          entry (ClassInfo.attributes cls) in
      entry ← for_each (λ entry child,
          child_obj ← deref classes child;
          Ok (append_parameter entry
                {| name := ClassInfo.name child_obj;
                   type := Some "class" |}))
        (ClassInfo.children cls) entry;
      Ok (meta ++ [entry]))
    classes [].
End MetaJSONGenerator.

(** ** Specification-side definitions *)

Section delta_spec.
Context {V : Type}.

(** §4.6 of the specification, [apply] in its own words: start from
    [base], remove every deleted key, then set every update, then set every
    addition. *)
Definition remove_keys (keys : list string) (m : gmap string V)
  : gmap string V :=
  foldl (λ m key, delete key m) m keys.
Definition set_updates (us : list (Update V)) (m : gmap string V)
  : gmap string V :=
  foldl (λ m u, <[upd_key u := upd_to u]> m) m us.
Definition set_additions (adds : list (Addition V)) (m : gmap string V)
  : gmap string V :=
  foldl (λ m a, <[add_key a := add_value a]> m) m adds.
Definition apply_spec (base : gmap string V) (delta : Delta V)
  : gmap string V :=
  set_additions (additions delta)
    (set_updates (updates delta) (remove_keys (deletions delta) base)).

(** The value the last entry for [key] carries, if there is an entry. *)
Definition last_value {A : Type} (key_of : A → string) (value_of : A → V)
    (key : string) (entries : list A) : option V :=
  value_of <$> last (filter (λ e, key_of e = key) entries).

Definition empty_delta : Delta V :=
  {| additions := []; deletions := []; updates := [] |}.
End delta_spec.

Section diff_spec.
Context {V : Type}.
Variable py_eq : V → V → bool.
Variable iter : gset string → list string.

(** What the loops of [DeltaJSONGenerator.generate] collect from a list of
    keys. *)
Definition adds_of (patched : gmap string V) (keys : list string)
  : list (Addition V) :=
  omap (λ key,
    (λ v, {| add_key := key; add_value := v |}) <$> patched !! key) keys.
Definition upds_of (base patched : gmap string V) (keys : list string)
  : list (Update V) :=
  omap (λ key,
    a ← base !! key; b ← patched !! key;
    if py_eq a b then None
    else Some {| upd_key := key; upd_from := a; upd_to := b |}) keys.

(** The delta [DeltaJSONGenerator.generate] returns (see [diff_generate]). *)
Definition diff_of (base patched : gmap string V) : Delta V :=
  {| additions := adds_of patched (iter (dom patched ∖ dom base));
     deletions := iter (dom base ∖ dom patched);
     updates := upds_of base patched (iter (dom base ∩ dom patched)) |}.

(** Equality of dictionaries up to Python's [==] on the values. *)
Definition dict_eq (m1 m2 : gmap string V) : Prop :=
  ∀ k, match m1 !! k, m2 !! k with
       | Some a, Some b => py_eq a b = true
       | None, None => True
       | _, _ => False
       end.
End diff_spec.

(** JSON documents, as [json.load] decodes them (numbers restricted to the
    integers), with structural equality. *)
Inductive json : Type :=
  | JNull
  | JBool (b : bool)
  | JNum (n : Z)
  | JStr (s : string)
  | JArr (items : list json)
  | JObj (members : list (string * json)).

Definition list_eqb {A : Type} (eqb : A → A → bool) : list A → list A → bool :=
  fix go xs ys :=
    match xs, ys with
    | [], [] => true
    | x :: xs', y :: ys' => eqb x y && go xs' ys'
    | _, _ => false
    end.

Fixpoint json_eqb (a b : json) : bool :=
  match a, b with
  | JNull, JNull => true
  | JBool x, JBool y => Bool.eqb x y
  | JNum x, JNum y => Z.eqb x y
  | JStr x, JStr y => String.eqb x y
  | JArr xs, JArr ys => list_eqb json_eqb xs ys
  | JObj xs, JObj ys =>
      list_eqb (λ p q, String.eqb p.1 q.1 && json_eqb p.2 q.2) xs ys
  | _, _ => false
  end.

(** The [ClassInfo] the first loop of [parse_xml] builds from one [Class]
    element. *)
Definition attribute_of (attr_elem : xml_attrib) : Attribute.t :=
  {| Attribute.name := get attr_elem "name";
     Attribute.type := get attr_elem "type" |}.
Definition class_info_of (class_elem : ClassElem) : ClassInfo.t :=
  {| ClassInfo.name := get (class_attrib class_elem) "name";
     ClassInfo.is_root :=
       bool_decide (get (class_attrib class_elem) "isRoot" = Some "true");
     ClassInfo.documentation :=
       get_default (class_attrib class_elem) "documentation" EmptyString;
     ClassInfo.attributes := attribute_of <$> attribute_elems class_elem;
     ClassInfo.children := [];
     ClassInfo.min := "0";
     ClassInfo.max := "0" |}.

(** The names the document declares. *)
Definition declared (xml : Document) : list attrval :=
  (λ class_elem, get (class_attrib class_elem) "name") <$> class_elems xml.

(** What the edges [aggs] make of the object stored under [k]: [o] before
    the edges are linked, [o'] after. *)
Record linked (aggs : list Aggregation) (k : ref) (o o' : ClassInfo.t)
  : Prop := {
  linked_name : ClassInfo.name o' = ClassInfo.name o;
  linked_is_root : ClassInfo.is_root o' = ClassInfo.is_root o;
  linked_documentation : ClassInfo.documentation o' = ClassInfo.documentation o;
  linked_attributes : ClassInfo.attributes o' = ClassInfo.attributes o;
  linked_children :
    ClassInfo.children o' =
    ClassInfo.children o ++ (source <$> filter (λ a, target a = k) aggs);
  linked_min_max :
    match last (filter (λ a, source a = k) aggs) with
    | Some a =>
        parse_multiplicity (sourceMultiplicity a) =
        Ok (ClassInfo.min o', ClassInfo.max o')
    | None =>
        ClassInfo.min o' = ClassInfo.min o ∧ ClassInfo.max o' = ClassInfo.max o
    end
}.

(** The store one edge leaves behind. *)
Definition link_store (classes : store) (agg : Aggregation)
    (min_val max_val : string) : store :=
  mutate (source agg) (ClassInfo.set_min_max min_val max_val)
    (mutate (target agg) (ClassInfo.append_child (source agg)) classes).

(** The containment graph of a store: [b] is a child of [a]. *)
Definition child_of (st : store) (a b : ref) : Prop :=
  ∃ o, dict_get a st = Some o ∧ b ∈ ClassInfo.children o.

(** No class reachable from [r] contains itself, directly or not. *)
Definition acyclic_from (st : store) (r : ref) : Prop :=
  ∀ c, rtc (child_of st) r c → ¬ tc (child_of st) c c.
Definition reaches_cycle (st : store) (r : ref) : Prop :=
  ∃ c, rtc (child_of st) r c ∧ tc (child_of st) c c.

(** A store as Python has it: keys are unique, every object is stored under
    its name and every reference denotes an object. *)
Record wf_store (st : store) : Prop := {
  wf_keys : NoDup st.*1;
  wf_names : ∀ k o, dict_get k st = Some o → ClassInfo.name o = k;
  wf_refs : ∀ k o c,
    dict_get k st = Some o → c ∈ ClassInfo.children o → is_Some (dict_get c st)
}.

Definition wf_storeb (st : store) : bool :=
  bool_decide (NoDup st.*1) &&
  forallb (λ kv,
    bool_decide (ClassInfo.name kv.2 = kv.1) &&
    forallb (λ c, bool_decide (is_Some (dict_get c st)))
      (ClassInfo.children kv.2)) st.

(** The record [MetaJSONGenerator.generate] emits for one object. *)
Definition attribute_param (a : Attribute.t) : MetaJSONGenerator.Param :=
  {| MetaJSONGenerator.name := Attribute.name a;
     MetaJSONGenerator.type := Attribute.type a |}.
Definition child_param (child_name : attrval) : MetaJSONGenerator.Param :=
  {| MetaJSONGenerator.name := child_name;
     MetaJSONGenerator.type := Some "class" |}.
Definition entry_of (o : ClassInfo.t) : MetaJSONGenerator.Entry :=
  {| MetaJSONGenerator.class := ClassInfo.name o;
     MetaJSONGenerator.documentation := ClassInfo.documentation o;
     MetaJSONGenerator.isRoot := ClassInfo.is_root o;
     MetaJSONGenerator.max := ClassInfo.max o;
     MetaJSONGenerator.min := ClassInfo.min o;
     MetaJSONGenerator.parameters :=
       (attribute_param <$> ClassInfo.attributes o) ++
       (child_param <$> ClassInfo.children o) |}.

(** ** Sample inputs *)

(** §8 of the specification: classes A (root), B and C, B contained in A
    with multiplicity ["1"] and C contained in A with ["0..*"]. *)
Definition sample_class (name : string) (root : bool) : ClassElem :=
  {| class_attrib :=
       if root then {[ "name" := name; "isRoot" := "true" ]}
       else {[ "name" := name ]};
     attribute_elems := [ {[ "name" := "id"; "type" := "int" ]} ] |}.
Definition sample_edge (src tgt mult : string) : xml_attrib :=
  {[ "source" := src; "target" := tgt; "sourceMultiplicity" := mult ]}.
Definition sample_xml : Document :=
  {| class_elems :=
       [sample_class "A" true; sample_class "B" false; sample_class "C" false];
     aggregation_elems := [sample_edge "B" "A" "1"; sample_edge "C" "A" "0..*"] |}.

Definition sample_object (name : string) (root : bool) (children : list ref)
    (min max : string) : ClassInfo.t :=
  {| ClassInfo.name := Some name; ClassInfo.is_root := root;
     ClassInfo.documentation := EmptyString;
     ClassInfo.attributes :=
       [{| Attribute.name := Some "id"; Attribute.type := Some "int" |}];
     ClassInfo.children := children;
     ClassInfo.min := min; ClassInfo.max := max |}.
Definition sample_model : ModelParser.t :=
  {| ModelParser.classes :=
       [(Some "A", sample_object "A" true [Some "B"; Some "C"] "0" "0");
        (Some "B", sample_object "B" false [] "1" "1");
        (Some "C", sample_object "C" false [] "0" "*")];
     ModelParser.aggregations :=
       ModelParser.parse_aggregation <$> aggregation_elems sample_xml |}.

(** Two classes that contain each other. *)
Definition cyclic_xml : Document :=
  {| class_elems := [sample_class "A" true; sample_class "B" false];
     aggregation_elems := [sample_edge "B" "A" "1"; sample_edge "A" "B" "1"] |}.
Definition cyclic_model : ModelParser.t :=
  {| ModelParser.classes :=
       [(Some "A", sample_object "A" true [Some "B"] "1" "1");
        (Some "B", sample_object "B" false [Some "A"] "1" "1")];
     ModelParser.aggregations :=
       ModelParser.parse_aggregation <$> aggregation_elems cyclic_xml |}.

(** Two configurations with nested values, as in §8 of the specification,
    on a heap that holds the first one; and a delta no [diff] produces. *)
Definition sample_base : gmap string json :=
  {[ "a" := JNum 1; "b" := JObj [("x", JArr [JNum 1; JNum 2])] ]}.
Definition sample_patched : gmap string json :=
  {[ "b" := JObj [("x", JArr [JNum 1; JNum 3])]; "c" := JStr "new" ]}.
Definition sample_heap : dict_heap json := {[ 0 := sample_base ]}.
Definition inconsistent_delta : Delta json :=
  {| additions := [{| add_key := "b"; add_value := JNull |}];
     deletions := ["a"; "missing"];
     updates := [{| upd_key := "a"; upd_from := JNum 1; upd_to := JNum 2 |}] |}.

(** Python's [==] on scalars: [True == 1] and [False == 0], so it is coarser
    than structural equality. *)
Inductive scalar : Set := SBool (b : bool) | SInt (n : Z).
Definition scalar_value (a : scalar) : Z :=
  match a with SBool b => Z.b2z b | SInt n => n end.
Definition scalar_py_eq (a b : scalar) : bool :=
  Z.eqb (scalar_value a) (scalar_value b).

(** Python's [==] on the numbers [json.load] returns: besides the integers
    it accepts the literal [NaN] and returns the float nan, which [==]
    equates with nothing, itself included. *)
Inductive number : Set := Int (n : Z) | NaN.
Definition number_py_eq (a b : number) : bool :=
  match a, b with
  | Int x, Int y => Z.eqb x y
  | _, _ => false
  end.

(** ** Further specification-side definitions *)

(** An update read backwards. *)
Definition swap_update {V : Type} (u : Update V) : Update V :=
  {| upd_key := upd_key u; upd_from := upd_to u; upd_to := upd_from u |}.

(** The sample classes with a second edge of malformed multiplicity and a
    third edge from a class that is not declared. *)
Definition bad_multiplicity_xml : Document :=
  {| class_elems := class_elems sample_xml;
     aggregation_elems :=
       [sample_edge "B" "A" "1"; sample_edge "C" "A" "1..2..3";
        sample_edge "D" "A" "1"] |}.

(** A class that contains itself. *)
Definition self_xml : Document :=
  {| class_elems := [sample_class "A" true];
     aggregation_elems := [sample_edge "A" "A" "1"] |}.
Definition self_model : ModelParser.t :=
  {| ModelParser.classes :=
       [(Some "A", sample_object "A" true [Some "A"] "1" "1")];
     ModelParser.aggregations :=
       ModelParser.parse_aggregation <$> aggregation_elems self_xml |}.

(** The sub-element [ConfigXMLGenerator.generate] adds for an attribute. *)
Definition attribute_element (a : Attribute.t) : Element :=
  Elem (Attribute.name a) (Some (str (Attribute.type a))) [].

(** Two stores that agree on what rendering reads: the keys, and the name,
    attributes and children of every object. *)
Definition same_shape (st st' : store) : Prop :=
  Forall2 (λ kv kv',
    kv.1 = kv'.1 ∧
    ClassInfo.name kv.2 = ClassInfo.name kv'.2 ∧
    ClassInfo.attributes kv.2 = ClassInfo.attributes kv'.2 ∧
    ClassInfo.children kv.2 = ClassInfo.children kv'.2) st st'.

(** The sample classes with other flags, documentation and bounds. *)
Definition relabelled_classes : store :=
  (λ kv, (kv.1,
    {| ClassInfo.name := ClassInfo.name kv.2;
       ClassInfo.is_root := negb (ClassInfo.is_root kv.2);
       ClassInfo.documentation := "changed";
       ClassInfo.attributes := ClassInfo.attributes kv.2;
       ClassInfo.children := ClassInfo.children kv.2;
       ClassInfo.min := "7"; ClassInfo.max := "9" |}))
  <$> ModelParser.classes sample_model.

(** The hierarchy document of the sample model. *)
Definition sample_rendering : Element :=
  Elem (Some "A") None
    [Elem (Some "id") (Some "int") [];
     Elem (Some "B") None [Elem (Some "id") (Some "int") []];
     Elem (Some "C") None [Elem (Some "id") (Some "int") []]].

(** ** The program *)

(** [main] is modelled over what it finds and what it leaves: the three
    required inputs as the library parsers return them, and the list of the
    files written, in order.  Creating the output directory when the module
    is loaded and failures of the operating system are left out. *)

(** A required input as [main] finds it: absent; present but rejected by its
    parser with the parser's own error ([ET.parse] raises [ParseError],
    [json.load] raises [JSONDecodeError]); present but read with another
    exception [e], as the [UnicodeDecodeError], a [ValueError], that
    [json.load] raises on a file that is not UTF-8 text; or present and
    parsed. *)
Inductive input (A : Type) : Type :=
  | Absent
  | Malformed
  | Rejected (e : exn)
  | Parsed (a : A).
Arguments Absent {A}.
Arguments Malformed {A}.
Arguments Rejected {A} e.
Arguments Parsed {A} a.

(** What [json.load] returns: a dictionary for a JSON object, and for any
    other document a list, a string, a number, a boolean or [None]. *)
Inductive loaded (V : Type) : Type :=
  | Dict (m : gmap string V)
  | NotDict.
Arguments Dict {V} m.
Arguments NotDict {V}.

(** [os.path.exists] *)
Definition present {A : Type} (i : input A) : bool :=
  match i with Absent => false | _ => true end.

(** The four [except] clauses of [main], each with its own message. *)
Inductive diagnostic : Set := MissingFile | XmlError | JsonError | DataError.

(** How a run ends: [main] returns; or it prints a diagnostic and calls
    [exit(1)]; or an exception that no clause catches leaves it. *)
Inductive ending : Set :=
  | Returned
  | Exit1 (d : diagnostic)
  | Uncaught (e : exn).

(** What can be raised inside the [try] block of [main]. *)
Inductive raised : Set :=
  | FileNotFoundError
  | ParseError
  | JSONDecodeError
  | Raised (e : exn).

Definition handle (r : raised) : ending :=
  match r with
  | FileNotFoundError => Exit1 MissingFile
  | ParseError => Exit1 XmlError
  | JSONDecodeError => Exit1 JsonError
  | Raised e => if main_catches e then Exit1 DataError else Uncaught e
  end.

(** The files a run writes under [out/]; a JSON file is represented by the
    value [json.dump] is given. *)
Inductive artifact (V : Type) : Type :=
  | ConfigXml (text : string)
  | MetaJson (meta : list MetaJSONGenerator.Entry)
  | DeltaJson (delta : Delta V)
  | ResPatchedJson (result : gmap string V).
Arguments ConfigXml {V} text.
Arguments MetaJson {V} meta.
Arguments DeltaJson {V} delta.
Arguments ResPatchedJson {V} result.

Inductive artifact_name : Set :=
  | config_xml | meta_json | delta_json | res_patched_config_json.
Definition name_of {V : Type} (a : artifact V) : artifact_name :=
  match a with
  | ConfigXml _ => config_xml
  | MetaJson _ => meta_json
  | DeltaJson _ => delta_json
  | ResPatchedJson _ => res_patched_config_json
  end.

(** A step of [main]: it sees the files written so far, may write more, and
    returns or raises. *)
Definition io (V A : Type) : Type :=
  list (artifact V) → (A + raised) * list (artifact V).

#[global] Instance io_ret {V} : MRet (io V) := λ A a written, (inl a, written).
#[global] Instance io_bind {V} : MBind (io V) := λ A B f m written,
  match m written with
  | (inl a, written') => f a written'
  | (inr r, written') => (inr r, written')
  end.

Definition raise {V A : Type} (r : raised) : io V A :=
  λ written, (inr r, written).
Definition lift {V A : Type} (o : outcome A) : io V A :=
  match o with Ok a => mret a | Raise e => raise (Raised e) end.
(** [with open(path, "w") as f: f.write(...)] *)
Definition write {V : Type} (a : artifact V) : io V () :=
  λ written, (inl (), written ++ [a]).

Definition newline : string := String (Ascii.ascii_of_nat 10) EmptyString.

Module Main.
Section main.
Context {V : Type}.
Variable py_eq : V → V → bool.
Variable iter : gset string → list string.
(** The interpreter's recursion limit, as [ConfigXMLGenerator.generate]
    counts it. *)
Variable recursion_limit : nat.
(** The lines of the text [minidom] prints for an element:
    [minidom.parseString(ET.tostring(root, encoding='utf-8'))
     .toprettyxml(indent="  ").splitlines()]. *)
Variable pretty_lines : Element → outcome (list string).

(** [ConfigXMLGenerator.save] *)
Definition save_config_xml (root : Element) : io V () :=
  lines ← lift (pretty_lines root);
  let pretty_xml :=
    join newline
      (filter (λ line, String.prefix "<?xml" line = false) lines) in
  write (ConfigXml pretty_xml).

(** The existence check on one required file. *)
Definition require {A : Type} (file : input A) : io V () :=
  if present file then mret () else raise FileNotFoundError.

(** [ModelParser(path)]: [ET.parse], then [parse_xml]. *)
Definition load_model (file : input Document) : io V ModelParser.t :=
  match file with
  | Parsed xml => lift (ModelParser.new xml)
  | Malformed => raise ParseError
  | Rejected e => raise (Raised e)
  | Absent => raise FileNotFoundError
  end.

(** [json.load] on an opened file. *)
Definition load_json (file : input (loaded V)) : io V (loaded V) :=
  match file with
  | Parsed value => mret value
  | Malformed => raise JSONDecodeError
  | Rejected e => raise (Raised e)
  | Absent => raise FileNotFoundError
  end.

(** [config.keys()], the first use [DeltaJSONGenerator.generate] makes of
    a configuration: only a dictionary has the method. *)
Definition keys (config : loaded V) : outcome (gmap string V) :=
  match config with
  | Dict m => Ok m
  | NotDict => Raise AttributeError
  end.

(** The [try] block of [main]. *)
Definition main (impulse_test_input_xml : input Document)
    (config_json patched_config_json : input (loaded V)) : io V () :=
  require impulse_test_input_xml;;
  require config_json;;
  require patched_config_json;;
  parser ← load_model impulse_test_input_xml;
  root_class ← lift (ModelParser.get_root_class parser);
  config_root ← lift (ConfigXMLGenerator.generate recursion_limit
                        (ModelParser.classes parser) root_class);
  save_config_xml config_root;;
  meta ← lift (MetaJSONGenerator.generate (ModelParser.classes parser));
  write (MetaJson meta);;
  config ← load_json config_json;
  patched_config ← load_json patched_config_json;
  config ← lift (keys config);
  patched_config ← lift (keys patched_config);
  delta ← lift (DeltaJSONGenerator.generate py_eq iter config patched_config);
  write (DeltaJson delta);;
  let h : dict_heap V := {[ 0 := config; 1 := patched_config ]} in
  '(h, res_patched) ← lift (ResPatchedConfigGenerator.generate h 0 delta);
  result ← lift (match h !! res_patched with
                 | Some m => Ok m
                 | None => Raise DanglingRef
                 end);
  write (ResPatchedJson result).

(** A run of the program: the [try] block, then the [except] clauses. *)
Definition run (impulse_test_input_xml : input Document)
    (config_json patched_config_json : input (loaded V))
  : ending * list (artifact V) :=
  match main impulse_test_input_xml config_json patched_config_json [] with
  | (inl _, written) => (Returned, written)
  | (inr r, written) => (handle r, written)
  end.
End main.
End Main.

(** A stand-in for the pretty-printer, for the sample runs. *)
Definition sample_pretty_lines (root : Element) : outcome (list string) :=
  Ok ["<?xml version=1.0 ?>"; "<A>"; "  <id>int</id>"; "</A>"].

(** * Properties *)

(** ** Loops *)

Lemma for_each_pure {A S : Type} (f : S → A → S) (xs : list A) (s : S) :
  for_each (λ s x, Ok (f s x)) xs s = Ok (foldl f s xs).
Proof. revert s. induction xs as [|x xs IH]; intros s; simpl; [done|]. apply IH. Qed.

Lemma for_each_app {A S : Type} (body : S → A → outcome S) (xs ys : list A) (s : S) :
  for_each body (xs ++ ys) s = s' ← for_each body xs s; for_each body ys s'.
Proof.
  revert s. induction xs as [|x xs IH]; intros s; simpl; [done|].
  destruct (body s x) as [s'|e]; simpl; [apply IH|done].
Qed.

(** ** Config delta engine *)

Section delta_lemmas.
Context {V : Type}.
Implicit Types (m base patched : gmap string V) (h : dict_heap V).
Implicit Types (delta : Delta V).

Lemma remove_keys_lookup keys m k :
  remove_keys keys m !! k = if decide (k ∈ keys) then None else m !! k.
Proof.
  unfold remove_keys. revert m.
  induction keys as [|key keys IH]; intros m; cbn [foldl].
  - destruct (decide (k ∈ [])) as [Hin|_]; [by apply elem_of_nil in Hin|done].
  - rewrite IH. destruct (decide (k ∈ key :: keys)) as [Hin|Hin].
    + destruct (decide (k ∈ keys)); [done|].
      apply elem_of_cons in Hin as [->|?]; [|done]. apply lookup_delete_eq.
    + apply not_elem_of_cons in Hin as [? ?].
      rewrite decide_False by done. by apply lookup_delete_ne.
Qed.

Lemma foldl_insert_lookup {A : Type} (key_of : A → string) (value_of : A → V)
    (entries : list A) m k :
  foldl (λ m e, <[key_of e := value_of e]> m) m entries !! k =
  match last_value key_of value_of k entries with
  | Some v => Some v
  | None => m !! k
  end.
Proof.
  unfold last_value.
  induction entries as [|e entries IH] using rev_ind; [done|].
  rewrite foldl_app, filter_app. cbn [foldl].
  destruct (decide (key_of e = k)) as [<-|Hne].
  - rewrite lookup_insert_eq.
    rewrite (filter_cons_True _ e []) by done.
    rewrite filter_nil, last_snoc. done.
  - rewrite lookup_insert_ne by done.
    rewrite (filter_cons_False _ e []) by done.
    rewrite filter_nil, app_nil_r. done.
Qed.

Lemma last_value_Some {A : Type} (key_of : A → string) (value_of : A → V)
    (entries : list A) k v :
  last_value key_of value_of k entries = Some v →
  ∃ e, e ∈ entries ∧ key_of e = k ∧ value_of e = v.
Proof.
  unfold last_value. intros (e & Hlast & ->)%fmap_Some.
  apply last_Some_elem_of, list_elem_of_filter in Hlast as [? ?]. eauto.
Qed.

Lemma last_value_None {A : Type} (key_of : A → string) (value_of : A → V)
    (entries : list A) k :
  last_value key_of value_of k entries = None ↔ k ∉ key_of <$> entries.
Proof.
  unfold last_value. rewrite fmap_None, last_None. split.
  - intros Hnil (e & -> & Hin)%list_elem_of_fmap.
    assert (e ∈ filter (λ e', key_of e' = key_of e) entries) as Hf
      by (by apply list_elem_of_filter).
    rewrite Hnil in Hf. by apply not_elem_of_nil in Hf.
  - intros Hnot. apply elem_of_nil_inv. intros e [<- Hin]%list_elem_of_filter.
    apply Hnot. by apply list_elem_of_fmap_2.
Qed.

(** Pointwise reading of [apply_spec]: additions shadow updates, which
    shadow deletions, which shadow [base]; within a bucket the last entry
    for a key wins. *)
Lemma apply_spec_lookup base delta k :
  apply_spec base delta !! k =
  match last_value add_key add_value k (additions delta) with
  | Some v => Some v
  | None =>
      match last_value upd_key upd_to k (updates delta) with
      | Some v => Some v
      | None => if decide (k ∈ deletions delta) then None else base !! k
      end
  end.
Proof.
  unfold apply_spec, set_additions, set_updates.
  rewrite !foldl_insert_lookup, remove_keys_lookup. done.
Qed.

(** The heap-level loops of [ResPatchedConfigGenerator.generate] act on the
    copy alone. *)
Lemma pop_loop h r m keys :
  foldl (λ h key, dict_pop r key h) (<[r := m]> h) keys =
  <[r := remove_keys keys m]> h.
Proof.
  unfold remove_keys. revert m.
  induction keys as [|key keys IH]; intros m; cbn [foldl]; [done|].
  unfold dict_pop at 2. rewrite alter_insert_eq. apply IH.
Qed.

Lemma setitem_loop {A : Type} (key_of : A → string) (value_of : A → V)
    h r m (entries : list A) :
  foldl (λ h e, dict_setitem r (key_of e) (value_of e) h) (<[r := m]> h) entries =
  <[r := foldl (λ m e, <[key_of e := value_of e]> m) m entries]> h.
Proof.
  revert m. induction entries as [|e entries IH]; intros m; cbn [foldl]; [done|].
  unfold dict_setitem at 2. rewrite alter_insert_eq. apply IH.
Qed.

Lemma apply_generate h config base delta :
  h !! config = Some base →
  ResPatchedConfigGenerator.generate h config delta =
  Ok (<[fresh (dom h) := apply_spec base delta]> h, fresh (dom h)).
Proof.
  intros Hc. unfold ResPatchedConfigGenerator.generate, dict_copy.
  rewrite Hc. cbn [mbind outcome_bind].
  rewrite for_each_pure, pop_loop. cbn [mbind outcome_bind].
  rewrite for_each_pure, (setitem_loop upd_key upd_to).
  cbn [mbind outcome_bind].
  rewrite for_each_pure, (setitem_loop add_key add_value). done.
Qed.

Lemma fresh_loc_unused h : h !! fresh (dom h) = None.
Proof. apply not_elem_of_dom, is_fresh. Qed.
End delta_lemmas.

Section diff_lemmas.
Context {V : Type}.
Variable py_eq : V → V → bool.
Variable iter : gset string → list string.
Hypothesis iter_perm : ∀ s, iter s ≡ₚ elements s.
Implicit Types (m base patched : gmap string V) (delta : Delta V).

Lemma elem_of_iter s k : k ∈ iter s ↔ k ∈ s.
Proof using iter_perm. by rewrite iter_perm, elem_of_elements. Qed.


Lemma getitem_Some m k v : m !! k = Some v → getitem m k = Ok v.
Proof. unfold getitem. by intros ->. Qed.

Lemma adds_of_cons patched key keys :
  adds_of patched (key :: keys) =
  match patched !! key with
  | Some v => {| add_key := key; add_value := v |} :: adds_of patched keys
  | None => adds_of patched keys
  end.
Proof. unfold adds_of. simpl. by destruct (patched !! key). Qed.

Lemma upds_of_cons base patched key keys :
  upds_of py_eq base patched (key :: keys) =
  match base !! key, patched !! key with
  | Some a, Some b =>
      if py_eq a b then upds_of py_eq base patched keys
      else {| upd_key := key; upd_from := a; upd_to := b |}
           :: upds_of py_eq base patched keys
  | _, _ => upds_of py_eq base patched keys
  end.
Proof.
  unfold upds_of. simpl.
  destruct (base !! key) as [a|]; [|done]. destruct (patched !! key) as [b|]; [|done].
  simpl. by destruct (py_eq a b).
Qed.

Lemma additions_loop patched keys delta :
  (∀ k, k ∈ keys → is_Some (patched !! k)) →
  for_each (λ delta key,
      v ← getitem patched key;
      Ok (append_addition delta {| add_key := key; add_value := v |}))
    keys delta =
  Ok {| additions := additions delta ++ adds_of patched keys;
        deletions := deletions delta; updates := updates delta |}.
Proof.
  revert delta. induction keys as [|key keys IH]; intros delta Hin.
  - cbn. rewrite app_nil_r. by destruct delta.
  - destruct (Hin key) as [v Hv]; [by left|].
    cbn [for_each]. rewrite (getitem_Some _ _ _ Hv). cbn [mbind outcome_bind].
    rewrite IH by (intros; apply Hin; by right).
    rewrite adds_of_cons, Hv. cbn. by rewrite <- app_assoc.
Qed.

Lemma deletions_loop keys delta :
  for_each (λ delta key, Ok (append_deletion delta key)) keys delta =
  Ok {| additions := additions delta;
        deletions := deletions delta ++ keys; updates := updates delta |}.
Proof.
  revert delta. induction keys as [|key keys IH]; intros delta.
  - cbn. rewrite app_nil_r. by destruct delta.
  - cbn [for_each mbind outcome_bind]. rewrite IH. cbn.
    by rewrite <- app_assoc.
Qed.

Lemma updates_loop base patched keys delta :
  (∀ k, k ∈ keys → is_Some (base !! k) ∧ is_Some (patched !! k)) →
  for_each (λ delta key,
      a ← getitem base key;
      b ← getitem patched key;
      if negb (py_eq a b) then
        from ← getitem base key;
        to ← getitem patched key;
        Ok (append_update delta
              {| upd_key := key; upd_from := from; upd_to := to |})
      else Ok delta)
    keys delta =
  Ok {| additions := additions delta; deletions := deletions delta;
        updates := updates delta ++ upds_of py_eq base patched keys |}.
Proof.
  revert delta. induction keys as [|key keys IH]; intros delta Hin.
  - cbn. rewrite app_nil_r. by destruct delta.
  - destruct (Hin key) as [[a Ha] [b Hb]]; [by left|].
    cbn [for_each].
    rewrite !(getitem_Some _ _ _ Ha), !(getitem_Some _ _ _ Hb).
    cbn [mbind outcome_bind].
    rewrite upds_of_cons, Ha, Hb.
    destruct (py_eq a b); cbn [negb mbind outcome_bind].
    + apply IH. intros; apply Hin; by right.
    + rewrite IH by (intros; apply Hin; by right).
      cbn. by rewrite <- app_assoc.
Qed.

(** [generate] never raises, and its three buckets are the three loops'
    collections. *)
Lemma diff_generate base patched :
  DeltaJSONGenerator.generate py_eq iter base patched =
  Ok (diff_of py_eq iter base patched).
Proof using iter_perm.
  unfold DeltaJSONGenerator.generate.
  rewrite additions_loop; cycle 1.
  { intros k [Hk _]%elem_of_iter%elem_of_difference. by apply elem_of_dom. }
  cbn [mbind outcome_bind]. rewrite deletions_loop. cbn [mbind outcome_bind].
  rewrite updates_loop; cycle 1.
  { intros k [? ?]%elem_of_iter%elem_of_intersection. by rewrite <- !elem_of_dom. }
  done.
Qed.

Lemma elem_of_adds_of patched keys a :
  a ∈ adds_of patched keys ↔
  add_key a ∈ keys ∧ patched !! add_key a = Some (add_value a).
Proof.
  unfold adds_of. rewrite list_elem_of_omap. split.
  - intros (k & Hk & (v & Hv & ->)%fmap_Some). done.
  - intros [Hk Hv]. exists (add_key a). split; [done|].
    rewrite Hv. by destruct a.
Qed.

Lemma elem_of_upds_of base patched keys u :
  u ∈ upds_of py_eq base patched keys ↔
  upd_key u ∈ keys ∧ base !! upd_key u = Some (upd_from u) ∧
  patched !! upd_key u = Some (upd_to u) ∧
  py_eq (upd_from u) (upd_to u) = false.
Proof.
  unfold upds_of. rewrite list_elem_of_omap. split.
  - intros (k & Hk & Hu).
    destruct (base !! k) as [a|] eqn:Ha; [|done].
    destruct (patched !! k) as [b|] eqn:Hb; [|done].
    cbn in Hu. destruct (py_eq a b) eqn:Hab; [done|].
    injection Hu as <-. done.
  - intros (Hk & Ha & Hb & Hne). exists (upd_key u). split; [done|].
    rewrite Ha, Hb. cbn. rewrite Hne. by destruct u.
Qed.


End diff_lemmas.

Lemma json_eqb_eq : ∀ a b, json_eqb a b = true → a = b.
Proof.
  fix IH 1.
  intros [|x|x|x|xs|xs] [|y|y|y|ys|ys]; simpl; try discriminate; intros H.
  - done.
  - f_equal. by apply Bool.eqb_prop.
  - f_equal. by apply Z.eqb_eq.
  - f_equal. by apply String.eqb_eq.
  - f_equal. revert ys H.
    induction xs as [|x xs IHxs]; intros [|y ys]; simpl; try discriminate; [done|].
    intros [H1 H2]%andb_true_iff. f_equal; [by apply IH|by apply IHxs].
  - f_equal. revert ys H.
    induction xs as [|[k x] xs IHxs]; intros [|[k' y] ys]; simpl;
      try discriminate; [done|].
    intros [[Hk H1]%andb_true_iff H2]%andb_true_iff.
    apply String.eqb_eq in Hk as ->.
    f_equal; [f_equal; by apply IH|by apply IHxs].
Qed.

Lemma json_eqb_refl : ∀ a, json_eqb a a = true.
Proof.
  fix IH 1. intros [|x|x|x|xs|xs]; simpl.
  - done.
  - by destruct x.
  - apply Z.eqb_refl.
  - apply String.eqb_refl.
  - induction xs as [|x xs IHxs]; simpl; [done|]. by rewrite IH, IHxs.
  - induction xs as [|[k x] xs IHxs]; simpl; [done|].
    by rewrite String.eqb_refl, IH, IHxs.
Qed.

Lemma json_eqb_spec a b : json_eqb a b = true ↔ a = b.
Proof. split; [apply json_eqb_eq|intros ->; apply json_eqb_refl]. Qed.

Section delta_engine_properties.
Context {V : Type}.
Variable py_eq : V → V → bool.
Variable iter : gset string → list string.
Hypothesis iter_perm : ∀ s, iter s ≡ₚ elements s.
Implicit Types (m base patched : gmap string V) (h : dict_heap V).

Lemma elem_of_diff_additions base patched a :
  a ∈ additions (diff_of py_eq iter base patched) ↔
  base !! add_key a = None ∧ patched !! add_key a = Some (add_value a).
Proof using iter_perm.
  cbn. rewrite elem_of_adds_of, (elem_of_iter iter iter_perm),
    elem_of_difference, elem_of_dom, not_elem_of_dom.
  split; [by intros [[_ ?] ?]|]. intros [? Hp]. by rewrite Hp.
Qed.

Lemma elem_of_diff_deletions base patched k :
  k ∈ deletions (diff_of py_eq iter base patched) ↔
  is_Some (base !! k) ∧ patched !! k = None.
Proof using iter_perm.
  cbn. by rewrite (elem_of_iter iter iter_perm), elem_of_difference,
    elem_of_dom, not_elem_of_dom.
Qed.

Lemma elem_of_diff_updates base patched u :
  u ∈ updates (diff_of py_eq iter base patched) ↔
  base !! upd_key u = Some (upd_from u) ∧
  patched !! upd_key u = Some (upd_to u) ∧
  py_eq (upd_from u) (upd_to u) = false.
Proof using iter_perm.
  cbn. rewrite elem_of_upds_of, (elem_of_iter iter iter_perm),
    elem_of_intersection, !elem_of_dom.
  split; [by intros (_ & ? & ? & ?)|]. intros (Hb & Hp & ?). by rewrite Hb, Hp.
Qed.


(** Patching [base] with the delta towards [patched] gives [patched] at
    every key where the two values are not merely [py_eq] but equal. *)
Lemma apply_diff_lookup base patched k :
  (∀ a b, base !! k = Some a → patched !! k = Some b →
          py_eq a b = true → a = b) →
  apply_spec base (diff_of py_eq iter base patched) !! k = patched !! k.
Proof using iter_perm.
  intros Heq. rewrite apply_spec_lookup.
  destruct (last_value add_key add_value k _) as [v|] eqn:Hadd.
  { apply last_value_Some in Hadd as (a & Ha & <- & <-).
    apply elem_of_diff_additions in Ha as [_ Ha]. done. }
  destruct (last_value upd_key upd_to k _) as [v|] eqn:Hupd.
  { apply last_value_Some in Hupd as (u & Hu & <- & <-).
    apply elem_of_diff_updates in Hu as (_ & Hu & _). done. }
  apply last_value_None in Hadd, Hupd.
  destruct (decide (k ∈ deletions (diff_of py_eq iter base patched))) as [Hdel|Hdel].
  { apply elem_of_diff_deletions in Hdel as [_ Hdel]. done. }
  destruct (base !! k) as [a|] eqn:Ha, (patched !! k) as [b|] eqn:Hb.
  - destruct (py_eq a b) eqn:Hab; [f_equal; by apply Heq|].
    exfalso. apply Hupd.
    apply (list_elem_of_fmap_2' _ _ {| upd_key := k; upd_from := a; upd_to := b |});
      [|done].
    by apply elem_of_diff_updates.
  - exfalso. apply Hdel, elem_of_diff_deletions. by rewrite Ha.
  - exfalso. apply Hadd.
    apply (list_elem_of_fmap_2' _ _ {| add_key := k; add_value := b |}); [|done].
    by apply elem_of_diff_additions.
  - done.
Qed.

Lemma iter_empty : iter ∅ = [].
Proof using iter_perm.
  apply Permutation_nil_r. by rewrite iter_perm, elements_empty.
Qed.

Lemma upds_of_same_values m keys :
  (∀ k v, m !! k = Some v → py_eq v v = true) → upds_of py_eq m m keys = [].
Proof.
  intros Hrefl. induction keys as [|key keys IH]; [done|].
  rewrite upds_of_cons. destruct (m !! key) as [v|] eqn:Hkey; [|done].
  by rewrite (Hrefl key v Hkey).
Qed.

Lemma upds_of_same m keys :
  (∀ v, py_eq v v = true) → upds_of py_eq m m keys = [].
Proof. intros Hrefl. apply upds_of_same_values. intros _ v _. apply Hrefl. Qed.

(** Whatever [py_eq] is, the round trip holds up to [py_eq] as soon as
    [py_eq] is reflexive. *)
Lemma round_trip_up_to_py_eq base patched :
  (∀ v, py_eq v v = true) →
  dict_eq py_eq (apply_spec base (diff_of py_eq iter base patched)) patched.
Proof using iter_perm.
  intros Hrefl k. rewrite apply_spec_lookup.
  destruct (last_value add_key add_value k _) as [v|] eqn:Hadd.
  { apply last_value_Some in Hadd as (a & Ha & <- & <-).
    apply elem_of_diff_additions in Ha as [_ ->]. done. }
  destruct (last_value upd_key upd_to k _) as [v|] eqn:Hupd.
  { apply last_value_Some in Hupd as (u & Hu & <- & <-).
    apply elem_of_diff_updates in Hu as (_ & -> & _). done. }
  apply last_value_None in Hadd, Hupd.
  destruct (decide (k ∈ deletions (diff_of py_eq iter base patched))) as [Hdel|Hdel].
  { apply elem_of_diff_deletions in Hdel as [_ ->]. done. }
  destruct (base !! k) as [a|] eqn:Ha, (patched !! k) as [b|] eqn:Hb; cbn.
  - destruct (py_eq a b) eqn:Hab; [done|].
    exfalso. apply Hupd.
    apply (list_elem_of_fmap_2' _ _ {| upd_key := k; upd_from := a; upd_to := b |});
      [|done].
    by apply elem_of_diff_updates.
  - apply Hdel, elem_of_diff_deletions. by rewrite Ha.
  - apply Hadd.
    apply (list_elem_of_fmap_2' _ _ {| add_key := k; add_value := b |}); [|done].
    by apply elem_of_diff_additions.
  - done.
Qed.

(** C1. Round trip: applying to [base] the delta computed from [base] to
    [patched] returns a new dictionary, which is [patched] when value
    equality is structural, and which Python's [==] equates with [patched]
    as soon as [==] is reflexive on the values. *)
Theorem delta_round_trip h config base patched :
  h !! config = Some base →
  ∃ delta r result,
    DeltaJSONGenerator.generate py_eq iter base patched = Ok delta ∧
    ResPatchedConfigGenerator.generate h config delta =
      Ok (<[r := result]> h, r) ∧
    h !! r = None ∧
    ((∀ a b, py_eq a b = true ↔ a = b) → result = patched) ∧
    ((∀ v, py_eq v v = true) → dict_eq py_eq result patched).
Proof using iter_perm.
  intros Hc.
  exists (diff_of py_eq iter base patched), (fresh (dom h)),
    (apply_spec base (diff_of py_eq iter base patched)).
  split_and!.
  - by apply diff_generate.
  - by apply apply_generate.
  - apply fresh_loc_unused.
  - intros Hstruct. apply map_eq. intros k.
    apply apply_diff_lookup. intros a b _ _. apply Hstruct.
  - apply round_trip_up_to_py_eq.
Qed.


(** C10 (amended). Applying the empty delta returns a copy of [base]; the
    delta from a dictionary to itself is the empty delta exactly when [==]
    holds between every value of the dictionary and itself, which it does
    not for the float nan; and applying the delta from a dictionary to
    itself returns a copy of the dictionary, whatever [==] is. *)
Theorem empty_delta_identity h config base :
  h !! config = Some base →
  (∃ r, ResPatchedConfigGenerator.generate h config empty_delta =
          Ok (<[r := base]> h, r) ∧ h !! r = None) ∧
  (DeltaJSONGenerator.generate py_eq iter base base = Ok empty_delta ↔
   ∀ k v, base !! k = Some v → py_eq v v = true) ∧
  (∃ delta r,
      DeltaJSONGenerator.generate py_eq iter base base = Ok delta ∧
      ResPatchedConfigGenerator.generate h config delta =
        Ok (<[r := base]> h, r) ∧ h !! r = None).
Proof using iter_perm.
  intros Hc. split_and!.
  - exists (fresh (dom h)). split; [|apply fresh_loc_unused].
    by rewrite (apply_generate h config base).
  - rewrite diff_generate by done. split.
    + intros Hempty k v Hk. destruct (py_eq v v) eqn:Hv; [done|].
      assert ({| upd_key := k; upd_from := v; upd_to := v |} ∈
              updates (diff_of py_eq iter base base)) as Hu
        by by apply elem_of_diff_updates.
      injection Hempty as _ _ Hupd. cbn [updates diff_of] in Hu.
      rewrite Hupd in Hu. by apply elem_of_nil in Hu.
    + intros Hrefl. unfold diff_of.
      rewrite difference_diag_L, iter_empty, upds_of_same_values by done.
      done.
  - exists (diff_of py_eq iter base base), (fresh (dom h)). split_and!.
    + by apply diff_generate.
    + rewrite (apply_generate h config base) by done.
      do 2 f_equal. f_equal. apply map_eq. intros k.
      apply apply_diff_lookup. congruence.
    + apply fresh_loc_unused.
Qed.
End delta_engine_properties.

(** C3. [apply] on any delta: the result is a new dictionary, [base] keeps
    its bindings, and the new dictionary is [base] with the deletions
    removed, then the updates set, then the additions set. *)
Theorem apply_is_sequential {V : Type} (h : dict_heap V) (config : loc)
    (base : gmap string V) (delta : Delta V) :
  h !! config = Some base →
  ∃ h' r,
    ResPatchedConfigGenerator.generate h config delta = Ok (h', r) ∧
    h !! r = None ∧
    (∀ l, l ≠ r → h' !! l = h !! l) ∧
    h' !! config = Some base ∧
    h' !! r = Some (apply_spec base delta) ∧
    ∀ k, apply_spec base delta !! k =
         match last_value add_key add_value k (additions delta) with
         | Some v => Some v
         | None =>
             match last_value upd_key upd_to k (updates delta) with
             | Some v => Some v
             | None => if decide (k ∈ deletions delta) then None else base !! k
             end
         end.
Proof.
  intros Hc.
  exists (<[fresh (dom h) := apply_spec base delta]> h), (fresh (dom h)).
  pose proof (fresh_loc_unused h) as Hfresh.
  split_and!.
  - by apply apply_generate.
  - done.
  - intros l Hl. by rewrite lookup_insert_ne.
  - rewrite lookup_insert_ne; [done|]. intros <-. congruence.
  - apply lookup_insert_eq.
  - apply apply_spec_lookup.
Qed.

(** ** Strings *)

Lemma prefix_skip sep s :
  String.prefix sep s = true → s = sep +:+ skip (String.length sep) s.
Proof.
  revert s. induction sep as [|c sep IH]; intros s; [done|].
  destruct s as [|c' s]; simpl; [done|].
  destruct (Ascii.ascii_dec c c') as [->|]; [|done].
  intros H. rewrite (IH s H) at 1. done.
Qed.

Lemma cut_None sep s : cut sep s = None ↔ contains sep s = false.
Proof.
  induction s as [|c s IH]; cbn [cut contains].
  - destruct (String.prefix sep EmptyString); cbn [orb]; by split.
  - destruct (String.prefix sep (String c s)); cbn [orb]; [by split|].
    rewrite <- IH. destruct (cut sep s) as [[a b]|]; by split.
Qed.

Lemma cut_Some sep s a b :
  cut sep s = Some (a, b) →
  s = a +:+ sep +:+ b ∧ contains sep s = true.
Proof.
  revert a. induction s as [|c s IH]; intros a; cbn [cut contains].
  - destruct (String.prefix sep EmptyString) eqn:Hp; [|done].
    intros [= <- <-]. split; [|done]. by apply prefix_skip in Hp.
  - destruct (String.prefix sep (String c s)) eqn:Hp.
    + intros [= <- <-]. split; [|done]. by apply prefix_skip in Hp.
    + destruct (cut sep s) as [[a' b']|]; [|done].
      intros [= <- <-]. destruct (IH a' eq_refl) as [Hs ->].
      split; [|done]. by rewrite Hs at 1.
Qed.

Lemma length_append s1 s2 :
  String.length (s1 +:+ s2) = String.length s1 + String.length s2.
Proof. induction s1 as [|c s1 IH]; simpl; [done|]. by rewrite IH. Qed.

Lemma cut_shorter sep s a b :
  sep ≠ EmptyString → cut sep s = Some (a, b) → String.length b < String.length s.
Proof.
  intros Hsep [-> _]%cut_Some. rewrite !length_append.
  destruct sep; [done|]. simpl. lia.
Qed.

Lemma split_fuel_enough sep s n m :
  sep ≠ EmptyString → String.length s < n → String.length s < m →
  split_fuel n sep s = split_fuel m sep s.
Proof.
  intros Hsep. revert s m. induction n as [|n IH]; intros s m Hn Hm; [lia|].
  destruct m as [|m]; [lia|]. cbn [split_fuel].
  destruct (cut sep s) as [[a b]|] eqn:Hcut; [|done].
  apply cut_shorter in Hcut; [|done]. f_equal. apply IH; lia.
Qed.

(** The fuel [split] starts with is enough: it obeys the recursion it
    stands for. *)
Lemma split_unfold sep s :
  sep ≠ EmptyString →
  split sep s = match cut sep s with
                | Some (a, b) => a :: split sep b
                | None => [s]
                end.
Proof.
  intros Hsep. unfold split at 1. cbn [split_fuel].
  destruct (cut sep s) as [[a b]|] eqn:Hcut; [|done].
  apply cut_shorter in Hcut; [|done]. f_equal.
  unfold split. apply split_fuel_enough; [done|lia..].
Qed.

Lemma split_no_sep sep s : sep ≠ EmptyString → contains sep s = false → split sep s = [s].
Proof. intros Hsep Hc. rewrite split_unfold by done. apply cut_None in Hc. by rewrite Hc. Qed.

Lemma split_with_sep sep s :
  sep ≠ EmptyString → contains sep s = true → (2 ≤ length (split sep s))%nat.
Proof.
  intros Hsep Hc. rewrite split_unfold by done.
  destruct (cut sep s) as [[a b]|] eqn:Hcut.
  - rewrite (split_unfold sep b) by done. destruct (cut sep b) as [[? ?]|]; simpl; lia.
  - apply cut_None in Hcut. congruence.
Qed.

Lemma split_nonempty sep s : sep ≠ EmptyString → split sep s ≠ [].
Proof. intros Hsep. rewrite split_unfold by done. by destruct (cut sep s) as [[? ?]|]. Qed.

(** Splitting loses nothing: joining the parts gives the string back. *)
Lemma join_split sep s : sep ≠ EmptyString → join sep (split sep s) = s.
Proof.
  intros Hsep. remember (String.length s) as n eqn:Hn. revert s Hn.
  induction n as [n IH] using lt_wf_ind. intros s ->.
  rewrite split_unfold by done.
  destruct (cut sep s) as [[a b]|] eqn:Hcut; [|done].
  pose proof (cut_shorter _ _ _ _ Hsep Hcut) as Hlt.
  apply cut_Some in Hcut as [-> _].
  specialize (IH _ Hlt b eq_refl).
  destruct (split sep b) as [|p rest] eqn:Hsplit;
    [by apply split_nonempty in Hsplit|].
  cbn [join]. cbn [join] in IH. by rewrite IH.
Qed.

(** ** Multiplicities *)

Lemma parse_multiplicity_no_dots s :
  contains ".." s = false → parse_multiplicity (Some s) = Ok (s, s).
Proof. unfold parse_multiplicity. by intros ->. Qed.

Lemma parse_multiplicity_two s a b :
  contains ".." s = true → split ".." s = [a; b] →
  parse_multiplicity (Some s) = Ok (a, b).
Proof. unfold parse_multiplicity. by intros -> ->. Qed.

Lemma parse_multiplicity_raises s e :
  parse_multiplicity (Some s) = Raise e ↔
  e = ValueError ∧ contains ".." s = true ∧ length (split ".." s) ≠ 2.
Proof.
  unfold parse_multiplicity.
  destruct (contains ".." s) eqn:Hc; [|by split; [|intros (_ & ? & _)]].
  destruct (split ".." s) as [|a [|b [|c rest]]]; simpl.
  - split; [by intros [= <-]|by intros (-> & _)].
  - split; [by intros [= <-]|by intros (-> & _)].
  - split; [done|]. by intros (_ & _ & ?).
  - split; [by intros [= <-]|by intros (-> & _)].
Qed.

Lemma parse_multiplicity_verbatim s a b :
  parse_multiplicity (Some s) = Ok (a, b) →
  (contains ".." s = false ∧ a = s ∧ b = s) ∨
  (contains ".." s = true ∧ s = a +:+ ".." +:+ b).
Proof.
  unfold parse_multiplicity.
  destruct (contains ".." s) eqn:Hc; [|intros [= <- <-]; by left].
  destruct (split ".." s) as [|a' [|b' [|c rest]]] eqn:Hs; try done.
  intros [= <- <-]. right. split; [done|].
  pose proof (join_split ".." s) as Hj. rewrite Hs in Hj. cbn [join] in Hj.
  symmetry. by apply Hj.
Qed.

(** C5 (amended). A multiplicity without [".."] is both bounds; one that
    [".."] cuts in two parts is those parts; the only failure is a
    [ValueError], raised exactly when the string contains [".."] and is cut
    in other than two parts; the bounds are pieces of the string, never
    checked to be numbers. *)
Theorem parse_multiplicity_spec (s : string) :
  (contains ".." s = false → parse_multiplicity (Some s) = Ok (s, s)) ∧
  (∀ a b, contains ".." s = true → split ".." s = [a; b] →
          parse_multiplicity (Some s) = Ok (a, b)) ∧
  (∀ e, parse_multiplicity (Some s) = Raise e ↔
        e = ValueError ∧ contains ".." s = true ∧
        length (split ".." s) ≠ 2) ∧
  (∀ a b, parse_multiplicity (Some s) = Ok (a, b) →
          (contains ".." s = false ∧ a = s ∧ b = s) ∨
          (contains ".." s = true ∧ s = a +:+ ".." +:+ b)) ∧
  main_catches ValueError = true ∧
  parse_multiplicity (Some "0..1") = Ok ("0", "1") ∧
  parse_multiplicity (Some "1") = Ok ("1", "1") ∧
  parse_multiplicity (Some "1..*") = Ok ("1", "*") ∧
  parse_multiplicity (Some "..") = Ok (EmptyString, EmptyString) ∧
  parse_multiplicity (Some EmptyString) = Ok (EmptyString, EmptyString).
Proof.
  split_and!; try reflexivity.
  - apply parse_multiplicity_no_dots.
  - apply parse_multiplicity_two.
  - apply parse_multiplicity_raises.
  - apply parse_multiplicity_verbatim.
Qed.

Lemma parse_multiplicity_spec_witness :
  parse_multiplicity (Some "0..*") = Ok ("0", "*").
Proof.
  apply (proj1 (proj2 (parse_multiplicity_spec "0..*")) "0" "*"); reflexivity.
Defined.

(** C5 as stated fails: a string without [".."] is cut in one part, which is
    other than two, and yet parses. *)
Lemma parse_multiplicity_one_part :
  ¬ (∀ s, (∃ e, parse_multiplicity (Some s) = Raise e) ↔
          length (split ".." s) ≠ 2).
Proof.
  intros H. destruct (proj2 (H "1")) as [e He]; [|discriminate He].
  vm_compute. discriminate.
Qed.

(** ** The class store *)

Lemma dict_get_is_Some k (d : store) : is_Some (dict_get k d) ↔ k ∈ d.*1.
Proof.
  induction d as [|[k' o] d IH]; cbn [dict_get fmap list_fmap fst].
  - split; [by intros [? ?]|by intros ?%elem_of_nil].
  - rewrite elem_of_cons. destruct (decide (k' = k)) as [->|Hne].
    + split; [by left|by eexists].
    + rewrite IH. split; [by right|]. by intros [->|?].
Qed.

Lemma dict_get_None k (d : store) : dict_get k d = None ↔ k ∉ d.*1.
Proof. rewrite <- dict_get_is_Some, eq_None_not_Some. done. Qed.

Lemma dict_get_elem_of k o (d : store) : dict_get k d = Some o → (k, o) ∈ d.
Proof.
  induction d as [|[k' o'] d IH]; cbn [dict_get]; [done|].
  destruct (decide (k' = k)) as [->|Hne].
  - intros [= ->]. by left.
  - intros ?. right. by apply IH.
Qed.

Lemma dict_get_set k v (d : store) k' :
  dict_get k' (dict_set k v d) =
  if decide (k' = k) then Some v else dict_get k' d.
Proof.
  induction d as [|[k0 o] d IH]; cbn [dict_set dict_get].
  - destruct (decide (k = k')) as [->|?].
    + by rewrite decide_True.
    + by rewrite decide_False by done.
  - destruct (decide (k0 = k)) as [->|Hne]; cbn [dict_get].
    + destruct (decide (k = k')) as [->|?].
      * by rewrite decide_True.
      * by rewrite decide_False by done.
    + destruct (decide (k0 = k')) as [->|?].
      * by rewrite decide_False by done.
      * done.
Qed.

Lemma dict_set_keys k v (d : store) :
  (dict_set k v d).*1 = if decide (k ∈ d.*1) then d.*1 else d.*1 ++ [k].
Proof.
  induction d as [|[k0 o] d IH]; cbn [dict_set fmap list_fmap fst].
  - rewrite decide_False; [done|]. apply not_elem_of_nil.
  - destruct (decide (k0 = k)) as [->|Hne]; cbn [fmap list_fmap fst].
    + rewrite decide_True; [done|]. by left.
    + fold (fmap (M := list) (@fst attrval ClassInfo.t)).
      rewrite IH. destruct (decide (k ∈ d.*1)) as [Hin|Hin].
      * rewrite decide_True; [done|]. by right.
      * rewrite decide_False; [done|]. intros [->|?]%elem_of_cons; done.
Qed.

Lemma dict_set_NoDup k v (d : store) : NoDup d.*1 → NoDup (dict_set k v d).*1.
Proof.
  intros Hd. rewrite dict_set_keys. destruct (decide (k ∈ d.*1)); [done|].
  apply NoDup_app. split_and!; [done| |apply NoDup_singleton].
  intros x Hx ->%list_elem_of_singleton. done.
Qed.

Lemma dict_get_mutate r f (d : store) k :
  dict_get k (mutate r f d) =
  if decide (k = r) then f <$> dict_get k d else dict_get k d.
Proof.
  induction d as [|[k0 o] d IH]; cbn [mutate dict_get].
  - by destruct (decide (k = r)).
  - destruct (decide (k0 = r)) as [->|Hne]; cbn [dict_get].
    + destruct (decide (r = k)) as [->|?].
      * by rewrite decide_True.
      * by rewrite decide_False by done.
    + destruct (decide (k0 = k)) as [->|?].
      * by rewrite decide_False by done.
      * done.
Qed.

Lemma mutate_keys r f (d : store) : (mutate r f d).*1 = d.*1.
Proof.
  induction d as [|[k0 o] d IH]; cbn [mutate]; [done|].
  destruct (decide (k0 = r)); cbn [fmap list_fmap fst]; [done|].
  f_equal. apply IH.
Qed.

Lemma wf_storeb_wf st : wf_storeb st = true → wf_store st.
Proof.
  unfold wf_storeb. intros [Hnd Hall]%andb_true_iff.
  apply bool_decide_eq_true in Hnd.
  rewrite forallb_forall in Hall.
  assert (∀ k o, dict_get k st = Some o →
    ClassInfo.name o = k ∧
    ∀ c, c ∈ ClassInfo.children o → is_Some (dict_get c st)) as H.
  { intros k o Hget%dict_get_elem_of%list_elem_of_In.
    apply Hall in Hget as [Hn Hc]%andb_true_iff.
    apply bool_decide_eq_true in Hn. split; [done|].
    intros c Hin%list_elem_of_In. rewrite forallb_forall in Hc.
    apply Hc in Hin. by apply bool_decide_eq_true in Hin. }
  split; [done|..].
  - intros k o Hget. by apply H.
  - intros k o c Hget. by apply (H k o).
Qed.

(** ** Building the model *)

Lemma append_attributes (ci : ClassInfo.t) (attr_elems : list xml_attrib) :
  foldl (λ class_info attr_elem,
      let attr_name := get attr_elem "name" in
      let attr_type := get attr_elem "type" in
      ClassInfo.append_attribute class_info
        {| Attribute.name := attr_name; Attribute.type := attr_type |})
    ci attr_elems =
  {| ClassInfo.name := ClassInfo.name ci;
     ClassInfo.is_root := ClassInfo.is_root ci;
     ClassInfo.documentation := ClassInfo.documentation ci;
     ClassInfo.attributes :=
       ClassInfo.attributes ci ++ (attribute_of <$> attr_elems);
     ClassInfo.children := ClassInfo.children ci;
     ClassInfo.min := ClassInfo.min ci;
     ClassInfo.max := ClassInfo.max ci |}.
Proof.
  revert ci. induction attr_elems as [|ae aes IH]; intros ci; cbn [foldl].
  - cbn. rewrite app_nil_r. by destruct ci.
  - rewrite IH. cbn. by rewrite <- app_assoc.
Qed.

Lemma parse_class_set classes class_elem :
  ModelParser.parse_class classes class_elem =
  dict_set (get (class_attrib class_elem) "name") (class_info_of class_elem)
    classes.
Proof. unfold ModelParser.parse_class. cbv zeta. by rewrite append_attributes. Qed.

(** After the first loop a name denotes the object of its last
    declaration. *)
Lemma parse_classes_lookup (ces : list ClassElem) k :
  dict_get k (foldl ModelParser.parse_class [] ces) =
  class_info_of <$>
    last (filter (λ ce, get (class_attrib ce) "name" = k) ces).
Proof.
  induction ces as [|ce ces IH] using rev_ind; [done|].
  rewrite foldl_app, filter_app. cbn [foldl].
  rewrite parse_class_set, dict_get_set.
  destruct (decide (k = get (class_attrib ce) "name")) as [->|Hne].
  - rewrite (filter_cons_True _ ce []) by done. by rewrite filter_nil, last_snoc.
  - rewrite (filter_cons_False _ ce []) by done. by rewrite filter_nil, app_nil_r.
Qed.

Lemma parse_classes_NoDup (ces : list ClassElem) :
  NoDup (foldl ModelParser.parse_class [] ces).*1.
Proof.
  induction ces as [|ce ces IH] using rev_ind; [constructor|].
  rewrite foldl_app. cbn [foldl]. rewrite parse_class_set.
  by apply dict_set_NoDup.
Qed.

Lemma parse_classes_keys (ces : list ClassElem) k :
  k ∈ (foldl ModelParser.parse_class [] ces).*1 ↔
  k ∈ (λ ce, get (class_attrib ce) "name") <$> ces.
Proof.
  rewrite <- dict_get_is_Some, parse_classes_lookup, fmap_is_Some.
  rewrite list_elem_of_fmap. split.
  - intros [ce [? ?]%last_Some_elem_of%list_elem_of_filter]. eauto.
  - intros (ce & -> & Hin).
    destruct (last (filter _ ces)) eqn:Hlast; [by eexists|].
    apply last_None in Hlast.
    assert (ce ∈ filter (λ ce', get (class_attrib ce') "name" =
                                get (class_attrib ce) "name") ces) as Hf
      by (by apply list_elem_of_filter).
    rewrite Hlast in Hf. by apply elem_of_nil in Hf.
Qed.

Lemma parse_aggregations (acc : list Aggregation) (elems : list xml_attrib) :
  foldl (λ aggs agg_elem, aggs ++ [ModelParser.parse_aggregation agg_elem])
    acc elems =
  acc ++ (ModelParser.parse_aggregation <$> elems).
Proof.
  revert acc. induction elems as [|e elems IH]; intros acc; cbn [foldl].
  - by rewrite app_nil_r.
  - rewrite IH. by rewrite <- app_assoc.
Qed.

(** ** Linking aggregation edges *)

Lemma dict_getitem_Ok (d : store) k o :
  dict_get k d = Some o → dict_getitem d k = Ok k.
Proof. unfold dict_getitem. by intros ->. Qed.

Lemma dict_getitem_KeyError (d : store) k :
  dict_get k d = None → dict_getitem d k = Raise KeyError.
Proof. unfold dict_getitem. by intros ->. Qed.

Lemma link_Ok classes agg s t min_val max_val :
  dict_get (source agg) classes = Some s →
  dict_get (target agg) classes = Some t →
  parse_multiplicity (sourceMultiplicity agg) = Ok (min_val, max_val) →
  ModelParser.link classes agg = Ok (link_store classes agg min_val max_val).
Proof.
  intros Hs Ht Hm. unfold ModelParser.link.
  rewrite (dict_getitem_Ok _ _ _ Hs), (dict_getitem_Ok _ _ _ Ht).
  cbn [mbind outcome_bind]. by rewrite Hm.
Qed.

Lemma link_Ok_inv classes agg classes' :
  ModelParser.link classes agg = Ok classes' →
  ∃ s t min_val max_val,
    dict_get (source agg) classes = Some s ∧
    dict_get (target agg) classes = Some t ∧
    parse_multiplicity (sourceMultiplicity agg) = Ok (min_val, max_val) ∧
    classes' = link_store classes agg min_val max_val.
Proof.
  unfold ModelParser.link, dict_getitem.
  destruct (dict_get (source agg) classes) as [s|] eqn:Hs; [|done].
  destruct (dict_get (target agg) classes) as [t|] eqn:Ht; [|done].
  cbn [mbind outcome_bind].
  destruct (parse_multiplicity _) as [[mn mx]|] eqn:Hm; [|done].
  cbn [mbind outcome_bind]. intros [= <-]. by exists s, t, mn, mx.
Qed.

Lemma link_KeyError classes agg :
  dict_get (source agg) classes = None ∨ dict_get (target agg) classes = None →
  ModelParser.link classes agg = Raise KeyError.
Proof.
  unfold ModelParser.link, dict_getitem.
  destruct (dict_get (source agg) classes) as [s|] eqn:Hs; [|done].
  intros [?| ->]; done.
Qed.

Lemma link_store_keys classes agg mn mx :
  (link_store classes agg mn mx).*1 = classes.*1.
Proof. unfold link_store. by rewrite !mutate_keys. Qed.

Lemma link_store_lookup classes agg mn mx k :
  dict_get k (link_store classes agg mn mx) =
  (λ o,
    let o := if decide (k = target agg)
             then ClassInfo.append_child (source agg) o else o in
    if decide (k = source agg) then ClassInfo.set_min_max mn mx o else o)
  <$> dict_get k classes.
Proof.
  unfold link_store. rewrite !dict_get_mutate.
  destruct (dict_get k classes) as [o|]; cbn; repeat case_decide; done.
Qed.

Lemma linked_nil k o : linked [] k o o.
Proof. split; try done. cbn. by rewrite app_nil_r. Qed.

Lemma last_cons_filter {A} (P : A → Prop) `{!∀ x, Decision (P x)} x l :
  last (filter P (x :: l)) =
  match last (filter P l) with
  | Some y => Some y
  | None => if decide (P x) then Some x else None
  end.
Proof.
  destruct (decide (P x)).
  - rewrite filter_cons_True by done. rewrite last_cons. by destruct (last _).
  - rewrite filter_cons_False by done. by destruct (last _).
Qed.

Lemma linked_cons agg aggs mn mx k o o' :
  parse_multiplicity (sourceMultiplicity agg) = Ok (mn, mx) →
  linked aggs k
    (let o1 := if decide (k = target agg)
               then ClassInfo.append_child (source agg) o else o in
     if decide (k = source agg) then ClassInfo.set_min_max mn mx o1 else o1)
    o' →
  linked (agg :: aggs) k o o'.
Proof.
  intros Hm [Hn Hr Hd Ha Hc Hmm]. cbv zeta in *.
  split.
  - rewrite Hn. repeat case_decide; reflexivity.
  - rewrite Hr. repeat case_decide; reflexivity.
  - rewrite Hd. repeat case_decide; reflexivity.
  - rewrite Ha. repeat case_decide; reflexivity.
  - rewrite Hc, filter_cons.
    destruct (decide (k = target agg)) as [->|Ht].
    + rewrite (decide_True (P := target agg = target agg)) by done.
      case_decide; cbn; by rewrite <- app_assoc.
    + rewrite (decide_False (P := target agg = k)) by congruence.
      case_decide; reflexivity.
  - rewrite last_cons_filter.
    destruct (last (filter (λ a, source a = k) aggs)) as [a|]; [done|].
    destruct (decide (k = source agg)) as [->|Hs].
    + rewrite (decide_True (P := source agg = source agg)) by done.
      by destruct Hmm as [-> ->].
    + rewrite (decide_False (P := source agg = k)) by congruence.
      destruct Hmm as [-> ->]. case_decide; done.
Qed.

(** The third loop of [parse_xml] as a whole. *)
Lemma link_loop aggs classes classes' :
  for_each ModelParser.link aggs classes = Ok classes' →
  classes'.*1 = classes.*1 ∧
  (∀ a, a ∈ aggs → source a ∈ classes.*1 ∧ target a ∈ classes.*1 ∧
                   ∃ mm, parse_multiplicity (sourceMultiplicity a) = Ok mm) ∧
  (∀ k o', dict_get k classes' = Some o' →
           ∃ o, dict_get k classes = Some o ∧ linked aggs k o o').
Proof.
  revert classes. induction aggs as [|agg aggs IH]; intros classes; cbn [for_each].
  - intros [= <-]. split_and!; [done|by intros ? ?%elem_of_nil|].
    intros k o' ?. exists o'. split; [done|apply linked_nil].
  - destruct (ModelParser.link classes agg) as [classes1|] eqn:Hlink; [|done].
    cbn [mbind outcome_bind]. intros Hrest.
    apply link_Ok_inv in Hlink as (s & t & mn & mx & Hs & Ht & Hm & ->).
    destruct (IH _ Hrest) as (Hkeys & Hall & Hget).
    rewrite link_store_keys in Hkeys, Hall. split_and!; [done| |].
    + intros a [-> | Hin]%elem_of_cons; [|by apply Hall].
      rewrite <- !dict_get_is_Some, Hs, Ht. eauto.
    + intros k o' Ho'. destruct (Hget k o' Ho') as (o1 & Ho1 & Hl).
      rewrite link_store_lookup in Ho1.
      destruct (dict_get k classes) as [o|]; [|done].
      injection Ho1 as <-. exists o. split; [done|].
      by apply (linked_cons agg aggs mn mx).
Qed.

(** The first failure of the loop decides its outcome. *)
Lemma link_loop_first_failure pre agg suf classes e :
  (∀ a, a ∈ pre → source a ∈ classes.*1 ∧ target a ∈ classes.*1 ∧
                  ∃ mm, parse_multiplicity (sourceMultiplicity a) = Ok mm) →
  (∀ classes1, classes1.*1 = classes.*1 →
               ModelParser.link classes1 agg = Raise e) →
  for_each ModelParser.link (pre ++ agg :: suf) classes = Raise e.
Proof.
  revert classes. induction pre as [|a pre IH]; intros classes Hpre Hagg.
  - cbn. by rewrite Hagg.
  - cbn [app for_each].
    destruct (Hpre a) as (Hs & Ht & [[mn mx] Hm]); [by left|].
    apply dict_get_is_Some in Hs as [s Hs], Ht as [t Ht].
    rewrite (link_Ok _ _ _ _ _ _ Hs Ht Hm). cbn [mbind outcome_bind].
    apply IH.
    + intros a' Ha'. rewrite link_store_keys. apply Hpre. by right.
    + intros classes1. rewrite link_store_keys. apply Hagg.
Qed.

(** [ModelParser.new] unfolded: the declared classes, then the edges. *)
Lemma new_Ok_inv xml p :
  ModelParser.new xml = Ok p →
  ModelParser.aggregations p =
    ModelParser.parse_aggregation <$> aggregation_elems xml ∧
  for_each ModelParser.link (ModelParser.aggregations p)
    (foldl ModelParser.parse_class [] (class_elems xml)) =
  Ok (ModelParser.classes p).
Proof.
  unfold ModelParser.new, ModelParser.parse_xml. cbn [ModelParser.classes ModelParser.aggregations].
  rewrite parse_aggregations. cbn [app].
  destruct (for_each _ _ _) as [classes|] eqn:Hloop; [|done].
  cbn [mbind outcome_bind]. intros [= <-]. done.
Qed.

Lemma new_wf xml p : ModelParser.new xml = Ok p → wf_store (ModelParser.classes p).
Proof.
  intros [Haggs Hloop]%new_Ok_inv.
  apply link_loop in Hloop as (Hkeys & Hall & Hget).
  split.
  - rewrite Hkeys. apply parse_classes_NoDup.
  - intros k o' (o & Ho & Hl)%Hget. rewrite (linked_name _ _ _ _ Hl).
    rewrite parse_classes_lookup in Ho.
    apply fmap_Some in Ho as (ce & Hce & ->).
    by apply last_Some_elem_of, list_elem_of_filter in Hce as [? _].
  - intros k o' c (o & Ho & Hl)%Hget. rewrite (linked_children _ _ _ _ Hl).
    rewrite parse_classes_lookup in Ho.
    apply fmap_Some in Ho as (ce & Hce & ->). cbn [ClassInfo.children app].
    intros (a & -> & [_ Ha]%list_elem_of_filter)%list_elem_of_fmap.
    apply dict_get_is_Some. rewrite Hkeys. by apply Hall.
Qed.

Lemma sample_model_built : ModelParser.new sample_xml = Ok sample_model.
Proof. vm_compute. reflexivity. Qed.

Lemma cyclic_model_built : ModelParser.new cyclic_xml = Ok cyclic_model.
Proof. vm_compute. reflexivity. Qed.

(** C4. Linking an edge appends the source to the target's children and
    sets the source's bounds to the parsed multiplicity, touching nothing
    else; in a built model the children of a class are the sources of the
    edges into it, in edge order, and its bounds come from the last edge out
    of it (["0"], ["0"] when there is none). *)
Theorem aggregation_edge_effect :
  (∀ classes agg s t mn mx,
     dict_get (source agg) classes = Some s →
     dict_get (target agg) classes = Some t →
     parse_multiplicity (sourceMultiplicity agg) = Ok (mn, mx) →
     ∃ classes' s' t',
       ModelParser.link classes agg = Ok classes' ∧
       classes'.*1 = classes.*1 ∧
       (∀ k, k ≠ source agg → k ≠ target agg →
             dict_get k classes' = dict_get k classes) ∧
       dict_get (source agg) classes' = Some s' ∧
       dict_get (target agg) classes' = Some t' ∧
       ClassInfo.children t' = ClassInfo.children t ++ [source agg] ∧
       ClassInfo.min s' = mn ∧ ClassInfo.max s' = mx ∧
       (source agg ≠ target agg →
        s' = ClassInfo.set_min_max mn mx s ∧
        t' = ClassInfo.append_child (source agg) t)) ∧
  (∀ xml p,
     ModelParser.new xml = Ok p →
     ModelParser.aggregations p =
       ModelParser.parse_aggregation <$> aggregation_elems xml ∧
     ∀ k o,
       dict_get k (ModelParser.classes p) = Some o →
       ClassInfo.children o =
         source <$> filter (λ a, target a = k) (ModelParser.aggregations p) ∧
       match last (filter (λ a, source a = k) (ModelParser.aggregations p)) with
       | Some a =>
           parse_multiplicity (sourceMultiplicity a) =
           Ok (ClassInfo.min o, ClassInfo.max o)
       | None => ClassInfo.min o = "0" ∧ ClassInfo.max o = "0"
       end).
Proof.
  split.
  - intros classes agg s t mn mx Hs Ht Hm.
    pose proof (link_store_lookup classes agg mn mx) as Hget.
    exists (link_store classes agg mn mx),
      (ClassInfo.set_min_max mn mx
         (if decide (source agg = target agg)
          then ClassInfo.append_child (source agg) s else s)),
      (let t1 := ClassInfo.append_child (source agg) t in
       if decide (target agg = source agg)
       then ClassInfo.set_min_max mn mx t1 else t1).
    split; [by eapply link_Ok|].
    split; [apply link_store_keys|].
    split.
    { intros k Hks Hkt. rewrite Hget.
      destruct (dict_get k classes); cbn; [|done].
      by rewrite !decide_False by done. }
    split.
    { rewrite Hget, Hs. cbn.
      by rewrite (decide_True (P := source agg = source agg)) by done. }
    split.
    { rewrite Hget, Ht. cbn.
      by rewrite (decide_True (P := target agg = target agg)) by done. }
    split_and!.
    + destruct (decide (target agg = source agg)); reflexivity.
    + reflexivity.
    + reflexivity.
    + intros Hne. cbv zeta. rewrite !decide_False by congruence. done.
  - intros xml p Hnew. destruct (new_Ok_inv _ _ Hnew) as [Haggs Hloop].
    split; [done|]. intros k o' Ho'.
    apply link_loop in Hloop as (_ & _ & Hget).
    destruct (Hget k o' Ho') as (o & Ho & Hl).
    rewrite parse_classes_lookup in Ho.
    apply fmap_Some in Ho as (ce & _ & ->).
    split; [apply (linked_children _ _ _ _ Hl)|].
    pose proof (linked_min_max _ _ _ _ Hl) as Hmm.
    by destruct (last _).
Qed.

Lemma aggregation_edge_effect_witness :
  ClassInfo.children (sample_object "A" true [Some "B"; Some "C"] "0" "0") =
    [Some "B"; Some "C"] ∧
  parse_multiplicity (Some "0..*") = Ok ("0", "*").
Proof.
  pose proof (proj2 (proj2 aggregation_edge_effect sample_xml sample_model
                       sample_model_built)) as H.
  split.
  - exact (proj1 (H (Some "A") _ eq_refl)).
  - exact (proj2 (H (Some "C") _ eq_refl)).
Defined.

(** C8. An edge whose source or target names no class raises [KeyError],
    which [main] does not catch; a document with such an edge never yields a
    model, and yields [KeyError] when the edges before it link. *)
Theorem unknown_class_is_key_error :
  (∀ classes agg,
     source agg ∉ classes.*1 ∨ target agg ∉ classes.*1 →
     ModelParser.link classes agg = Raise KeyError) ∧
  (∀ xml pre e suf,
     aggregation_elems xml = pre ++ e :: suf →
     (∀ e', e' ∈ pre →
            get e' "source" ∈ declared xml ∧ get e' "target" ∈ declared xml ∧
            ∃ mm, parse_multiplicity (get e' "sourceMultiplicity") = Ok mm) →
     get e "source" ∉ declared xml ∨ get e "target" ∉ declared xml →
     ModelParser.new xml = Raise KeyError) ∧
  (∀ xml p e,
     ModelParser.new xml = Ok p → e ∈ aggregation_elems xml →
     get e "source" ∈ declared xml ∧ get e "target" ∈ declared xml) ∧
  main_catches KeyError = false.
Proof.
  split_and!; [| | |done].
  - intros classes agg Hno. apply link_KeyError.
    by rewrite !dict_get_None.
  - intros xml pre e suf Helems Hpre Hno.
    unfold ModelParser.new, ModelParser.parse_xml.
    cbn [ModelParser.classes ModelParser.aggregations].
    rewrite parse_aggregations. cbn [app]. rewrite Helems, fmap_app, fmap_cons.
    rewrite (link_loop_first_failure _ _ _ _ KeyError); [done|..].
    + intros a (e' & -> & He')%list_elem_of_fmap.
      rewrite !parse_classes_keys. by apply Hpre.
    + intros classes1 Hkeys. apply link_KeyError.
      rewrite !dict_get_None, Hkeys.
      destruct Hno as [Hno|Hno]; [left|right];
        intros Hin%parse_classes_keys; by apply Hno.
  - intros xml p e [Haggs Hloop]%new_Ok_inv He.
    apply link_loop in Hloop as (_ & Hall & _).
    destruct (Hall (ModelParser.parse_aggregation e)) as (Hs & Ht & _).
    { rewrite Haggs. by apply list_elem_of_fmap_2. }
    by apply parse_classes_keys in Hs, Ht.
Qed.

Lemma unknown_class_is_key_error_witness :
  ModelParser.link (ModelParser.classes sample_model)
    {| source := Some "D"; target := Some "A";
       sourceMultiplicity := Some "1"; targetMultiplicity := None |} =
  Raise KeyError.
Proof.
  apply (proj1 unknown_class_is_key_error). left. vm_compute.
  intros H. repeat (apply elem_of_cons in H as [H|H]; [discriminate H|]).
  by apply elem_of_nil in H.
Defined.

(** C7. [get_root_class] returns the first class flagged root in the order
    of the class dictionary, whatever follows it, and raises
    [StopIteration], which [main] does not catch, exactly when no class is
    flagged. *)
Theorem get_root_class_first_root (self : ModelParser.t) :
  (∀ pre k o suf,
     ModelParser.classes self = pre ++ (k, o) :: suf →
     Forall (λ kv, ClassInfo.is_root kv.2 = false) pre →
     ClassInfo.is_root o = true →
     ModelParser.get_root_class self = Ok k) ∧
  (Forall (λ kv, ClassInfo.is_root kv.2 = false) (ModelParser.classes self) ↔
   ModelParser.get_root_class self = Raise StopIteration) ∧
  (∀ e, ModelParser.get_root_class self = Raise e → e = StopIteration) ∧
  main_catches StopIteration = false.
Proof.
  unfold ModelParser.get_root_class.
  split_and!; [| | |done].
  - intros pre k o suf -> Hpre Ho.
    induction Hpre as [|[k' o'] pre Hk' _ IH]; cbn in *.
    + by rewrite Ho.
    + by rewrite Hk'.
  - induction (ModelParser.classes self) as [|[k o] st IH]; cbn.
    + done.
    + destruct (ClassInfo.is_root o) eqn:Ho.
      * split; [|done]. intros Hall. apply Forall_cons_1 in Hall as [Hall _].
        cbn in Hall. congruence.
      * rewrite Forall_cons. cbn. rewrite <- IH. split; [by intros [_ ?]|done].
  - intros e. destruct (find _ _) as [[k o]|]; [done|]. by intros [= <-].
Qed.

Lemma get_root_class_first_root_witness :
  ModelParser.get_root_class sample_model = Ok (Some "A").
Proof.
  apply (proj1 (get_root_class_first_root sample_model)
           [] (Some "A") (sample_object "A" true [Some "B"; Some "C"] "0" "0")
           [(Some "B", sample_object "B" false [] "1" "1");
            (Some "C", sample_object "C" false [] "0" "*")]).
  - reflexivity.
  - constructor.
  - reflexivity.
Defined.

(** ** Flat metadata *)

Lemma dict_get_NoDup (st : store) k o :
  NoDup st.*1 → (k, o) ∈ st → dict_get k st = Some o.
Proof.
  induction st as [|[k' o'] st IH]; cbn [dict_get fmap list_fmap fst].
  - by intros _ ?%elem_of_nil.
  - intros [Hk' Hnd]%NoDup_cons [[= -> ->]|Hin]%elem_of_cons.
    + by rewrite decide_True.
    + rewrite decide_False; [by apply IH|].
      intros ->. apply Hk'. by apply (list_elem_of_fmap_2 fst _ (k, o)).
Qed.

Lemma deref_Ok (d : store) r o : dict_get r d = Some o → deref d r = Ok o.
Proof. unfold deref. by intros ->. Qed.

Lemma attribute_params (entry : MetaJSONGenerator.Entry)
    (attrs : list Attribute.t) :
  foldl (λ entry attr,
      MetaJSONGenerator.append_parameter entry
        {| MetaJSONGenerator.name := Attribute.name attr;
           MetaJSONGenerator.type := Attribute.type attr |})
    entry attrs =
  {| MetaJSONGenerator.class := MetaJSONGenerator.class entry;
     MetaJSONGenerator.documentation := MetaJSONGenerator.documentation entry;
     MetaJSONGenerator.isRoot := MetaJSONGenerator.isRoot entry;
     MetaJSONGenerator.max := MetaJSONGenerator.max entry;
     MetaJSONGenerator.min := MetaJSONGenerator.min entry;
     MetaJSONGenerator.parameters :=
       MetaJSONGenerator.parameters entry ++ (attribute_param <$> attrs) |}.
Proof.
  revert entry. induction attrs as [|a attrs IH]; intros entry; cbn [foldl].
  - cbn. rewrite app_nil_r. by destruct entry.
  - rewrite IH. cbn. by rewrite <- app_assoc.
Qed.

Lemma child_params (classes : store) (entry : MetaJSONGenerator.Entry)
    (cs : list ref) :
  (∀ c, c ∈ cs → ∃ o, dict_get c classes = Some o ∧ ClassInfo.name o = c) →
  for_each (λ entry child,
      child_obj ← deref classes child;
      Ok (MetaJSONGenerator.append_parameter entry
            {| MetaJSONGenerator.name := ClassInfo.name child_obj;
               MetaJSONGenerator.type := Some "class" |}))
    cs entry =
  Ok {| MetaJSONGenerator.class := MetaJSONGenerator.class entry;
        MetaJSONGenerator.documentation := MetaJSONGenerator.documentation entry;
        MetaJSONGenerator.isRoot := MetaJSONGenerator.isRoot entry;
        MetaJSONGenerator.max := MetaJSONGenerator.max entry;
        MetaJSONGenerator.min := MetaJSONGenerator.min entry;
        MetaJSONGenerator.parameters :=
          MetaJSONGenerator.parameters entry ++ (child_param <$> cs) |}.
Proof.
  revert entry. induction cs as [|c cs IH]; intros entry Hcs; cbn [for_each].
  - cbn. rewrite app_nil_r. by destruct entry.
  - destruct (Hcs c) as (o & Ho & Hn); [by left|].
    rewrite (deref_Ok _ _ _ Ho). cbn [mbind outcome_bind].
    rewrite IH by (intros; apply Hcs; by right).
    cbn. rewrite Hn. by rewrite <- app_assoc.
Qed.

Lemma meta_loop (classes : store) (l : list (ref * ClassInfo.t))
    (meta : list MetaJSONGenerator.Entry) :
  wf_store classes →
  (∀ kv, kv ∈ l → kv ∈ classes) →
  for_each (λ meta kv,
      let cls := kv.2 in
      let entry :=
        {| MetaJSONGenerator.class := ClassInfo.name cls;
           MetaJSONGenerator.documentation := ClassInfo.documentation cls;
           MetaJSONGenerator.isRoot := ClassInfo.is_root cls;
           MetaJSONGenerator.max := ClassInfo.max cls;
           MetaJSONGenerator.min := ClassInfo.min cls;
           MetaJSONGenerator.parameters := [] |} in
      let entry :=
        foldl (λ entry attr,
            MetaJSONGenerator.append_parameter entry
              {| MetaJSONGenerator.name := Attribute.name attr;
                 MetaJSONGenerator.type := Attribute.type attr |})
          entry (ClassInfo.attributes cls) in
      entry ← for_each (λ entry child,
          child_obj ← deref classes child;
          Ok (MetaJSONGenerator.append_parameter entry
                {| MetaJSONGenerator.name := ClassInfo.name child_obj;
                   MetaJSONGenerator.type := Some "class" |}))
        (ClassInfo.children cls) entry;
      Ok (meta ++ [entry]))
    l meta =
  Ok (meta ++ (entry_of <$> l.*2)).
Proof.
  intros [Hnd Hnames Hrefs]. revert meta.
  induction l as [|[k o] l IH]; intros meta Hl; cbn [for_each].
  - cbn. by rewrite app_nil_r.
  - cbv zeta. cbn [snd]. rewrite attribute_params.
    assert (dict_get k classes = Some o) as Ho.
    { apply dict_get_NoDup; [done|]. apply Hl. by left. }
    rewrite child_params; cycle 1.
    { intros c Hc. destruct (Hrefs k o c Ho Hc) as [oc Hoc].
      exists oc. split; [done|]. by apply Hnames. }
    cbn [mbind outcome_bind]. rewrite IH by (intros; apply Hl; by right).
    cbn. by rewrite <- app_assoc.
Qed.

(** On a well-formed store, hence also on one whose containment graph has
    cycles, [generate] returns, with one record per stored class. *)
Lemma meta_generate (classes : store) :
  wf_store classes →
  MetaJSONGenerator.generate classes = Ok (entry_of <$> classes.*2).
Proof.
  intros Hwf. exact (meta_loop classes classes [] Hwf (λ _ H, H)).
Qed.

(** C6. For every built model, with or without containment cycles, the
    metadata generator returns one record per declared class, in the order
    of the class dictionary; a record carries the class's name,
    documentation, root flag and bounds, and its parameters are the
    attributes in order followed by the children in order. *)
Theorem meta_one_record_per_class (xml : Document) (p : ModelParser.t) :
  ModelParser.new xml = Ok p →
  ∃ meta,
    MetaJSONGenerator.generate (ModelParser.classes p) = Ok meta ∧
    MetaJSONGenerator.class <$> meta = (ModelParser.classes p).*1 ∧
    NoDup (MetaJSONGenerator.class <$> meta) ∧
    (∀ n, n ∈ MetaJSONGenerator.class <$> meta ↔ n ∈ declared xml) ∧
    Forall2 (λ kv e,
        e = entry_of kv.2 ∧
        MetaJSONGenerator.parameters e =
          (attribute_param <$> ClassInfo.attributes kv.2) ++
          (child_param <$> ClassInfo.children kv.2) ∧
        length (MetaJSONGenerator.parameters e) =
          length (ClassInfo.attributes kv.2) + length (ClassInfo.children kv.2))
      (ModelParser.classes p) meta.
Proof.
  intros Hnew. pose proof (new_wf _ _ Hnew) as Hwf.
  exists (entry_of <$> (ModelParser.classes p).*2).
  assert (MetaJSONGenerator.class <$> (entry_of <$> (ModelParser.classes p).*2)
          = (ModelParser.classes p).*1) as Hclass.
  { rewrite <- !list_fmap_compose. apply list_fmap_ext.
    intros i [k o] Hi%list_elem_of_lookup_2. cbn.
    apply (wf_names _ Hwf), dict_get_NoDup; [apply Hwf|done]. }
  split_and!.
  - by apply meta_generate.
  - done.
  - rewrite Hclass. apply Hwf.
  - intros n. rewrite Hclass.
    destruct (new_Ok_inv _ _ Hnew) as [_ (Hkeys & _ & _)%link_loop].
    rewrite Hkeys. apply parse_classes_keys.
  - rewrite <- list_fmap_compose. apply Forall2_fmap_r, Forall_Forall2_diag.
    apply Forall_forall. intros [k o] _. cbn. split_and!; [done..|].
    by rewrite length_app, !length_fmap.
Qed.

Lemma meta_one_record_per_class_witness :
  ∃ meta,
    MetaJSONGenerator.generate (ModelParser.classes cyclic_model) = Ok meta ∧
    MetaJSONGenerator.class <$> meta = [Some "A"; Some "B"].
Proof.
  destruct (meta_one_record_per_class cyclic_xml cyclic_model cyclic_model_built)
    as (meta & Hgen & Hclass & _).
  exists meta. split; [exact Hgen|exact Hclass].
Defined.

(** ** Rendering the hierarchy *)

Section for_each_bind.
Context {A B S : Type} (g : S → B → S).
Implicit Types (f : A → outcome B) (xs : list A) (s : S).

Lemma for_each_bind_Ok f xs s :
  (∀ x, x ∈ xs → ∃ y, f x = Ok y) →
  ∃ s', for_each (λ s x, y ← f x; Ok (g s y)) xs s = Ok s'.
Proof.
  revert s. induction xs as [|x xs IH]; intros s Hxs; cbn [for_each].
  - by exists s.
  - destruct (Hxs x) as [y ->]; [by left|]. cbn [mbind outcome_bind].
    apply IH. intros; apply Hxs; by right.
Qed.

Lemma for_each_bind_ext f f' xs s s' :
  (∀ x y, x ∈ xs → f x = Ok y → f' x = Ok y) →
  for_each (λ s x, y ← f x; Ok (g s y)) xs s = Ok s' →
  for_each (λ s x, y ← f' x; Ok (g s y)) xs s = Ok s'.
Proof.
  revert s. induction xs as [|x xs IH]; intros s Hxs; cbn [for_each]; [done|].
  destruct (f x) as [y|] eqn:Hfx; [|done].
  rewrite (Hxs x y) by (done || by left). cbn [mbind outcome_bind].
  apply IH. intros; eapply Hxs; [by right|done].
Qed.

Lemma for_each_bind_cases f xs s e :
  (∀ x, x ∈ xs → (∃ y, f x = Ok y) ∨ f x = Raise e) →
  (∃ s', for_each (λ s x, y ← f x; Ok (g s y)) xs s = Ok s') ∨
  for_each (λ s x, y ← f x; Ok (g s y)) xs s = Raise e.
Proof.
  revert s. induction xs as [|x xs IH]; intros s Hxs; cbn [for_each].
  - left. by exists s.
  - destruct (Hxs x) as [[y ->]| ->]; [by left| |by right].
    cbn [mbind outcome_bind]. apply IH. intros; apply Hxs; by right.
Qed.

Lemma for_each_bind_Raise f xs s e x :
  x ∈ xs → f x = Raise e →
  (∀ x', x' ∈ xs → (∃ y, f x' = Ok y) ∨ f x' = Raise e) →
  for_each (λ s x, y ← f x; Ok (g s y)) xs s = Raise e.
Proof.
  revert s. induction xs as [|x' xs IH]; intros s Hx Hfx Hxs; cbn [for_each].
  - by apply elem_of_nil in Hx.
  - destruct (Hxs x') as [[y Hy]| ->]; [by left| |done].
    rewrite Hy. cbn [mbind outcome_bind].
    apply elem_of_cons in Hx as [->|Hx]; [congruence|].
    apply IH; [done..|]. intros; apply Hxs; by right.
Qed.
End for_each_bind.

Section rendering.
Variable classes : store.
(** Every reference denotes an object. *)
Hypothesis Hrefs : ∀ k o c,
  dict_get k classes = Some o → c ∈ ClassInfo.children o →
  is_Some (dict_get c classes).

Lemma generate_mono limit r e :
  ConfigXMLGenerator.generate limit classes r = Ok e →
  ConfigXMLGenerator.generate (S limit) classes r = Ok e.
Proof.
  revert r e. induction limit as [|limit IH]; intros r e; [done|].
  cbn [ConfigXMLGenerator.generate].
  destruct (deref classes r) as [self|]; [|done]. cbn [mbind outcome_bind].
  apply for_each_bind_ext. intros c y _. apply IH.
Qed.

Lemma generate_mono_le limit limit' r e :
  (limit ≤ limit')%nat →
  ConfigXMLGenerator.generate limit classes r = Ok e →
  ConfigXMLGenerator.generate limit' classes r = Ok e.
Proof. induction 1; [done|]. intros ?. by apply generate_mono, IHle. Qed.

Lemma child_of_bound a b : child_of classes a b → b ∈ classes.*1.
Proof using Hrefs.
  intros (o & Ho & Hb). apply dict_get_is_Some. by eapply Hrefs.
Qed.

(** Rendering a stored class either returns or exceeds the limit. *)
Lemma generate_cases limit r :
  r ∈ classes.*1 →
  (∃ e, ConfigXMLGenerator.generate limit classes r = Ok e) ∨
  ConfigXMLGenerator.generate limit classes r = Raise RecursionError.
Proof using Hrefs.
  revert r. induction limit as [|limit IH]; intros r Hr; [by right|].
  cbn [ConfigXMLGenerator.generate].
  apply dict_get_is_Some in Hr as [o Ho].
  rewrite (deref_Ok _ _ _ Ho). cbn [mbind outcome_bind].
  apply for_each_bind_cases. intros c Hc. apply IH.
  apply (child_of_bound r). by exists o.
Qed.

(** A containment cycle below [r] defeats every recursion limit. *)
Lemma generate_cycle limit r :
  reaches_cycle classes r →
  ConfigXMLGenerator.generate limit classes r = Raise RecursionError.
Proof using Hrefs.
  revert r. induction limit as [|limit IH]; intros r Hcyc; [done|].
  assert (∃ o c, dict_get r classes = Some o ∧ c ∈ ClassInfo.children o ∧
                 reaches_cycle classes c) as (o & c & Ho & Hc & Hcyc').
  { destruct Hcyc as (x & Hrx & Hx).
    apply rtc_inv in Hrx as [->|(y & (o & Ho & Hy) & Hyx)].
    - assert (∃ y, child_of classes x y ∧ rtc (child_of classes) y x)
        as (y & (o & Ho & Hy) & Hyx).
      { inversion Hx as [? ? Hstep|? y ? Hstep Hrest]; subst.
        - exists x. split; [done|reflexivity].
        - exists y. split; [done|by apply tc_rtc]. }
      exists o, y. split_and!; [done..|]. by exists x.
    - exists o, y. split_and!; [done..|]. by exists x. }
  cbn [ConfigXMLGenerator.generate].
  rewrite (deref_Ok _ _ _ Ho). cbn [mbind outcome_bind].
  apply (for_each_bind_Raise _ _ _ _ _ c); [done|by apply IH|].
  intros c' Hc'. apply generate_cases, (child_of_bound r). by exists o.
Qed.

(** Without a cycle below [r] no chain of nested calls revisits a class,
    so the number of classes bounds the depth: [seen] are the classes of
    the calls in progress. *)
Lemma generate_acyclic limit seen r :
  NoDup seen →
  (∀ a, a ∈ seen → a ∈ classes.*1 ∧ tc (child_of classes) a r) →
  acyclic_from classes r →
  r ∈ classes.*1 →
  (length classes ≤ length seen + limit)%nat →
  ∃ e, ConfigXMLGenerator.generate limit classes r = Ok e.
Proof using Hrefs.
  revert seen r.
  induction limit as [|limit IH]; intros seen r Hnd Hseen Hacyc Hr Hlen.
  all: assert (NoDup (r :: seen)) as Hnd'.
  1,3: constructor; [|done]; intros [_ Htc]%Hseen; by apply (Hacyc r).
  all: assert (length (r :: seen) ≤ length classes)%nat as Hle.
  1,3: rewrite <- (length_fmap fst classes); apply submseteq_length,
         NoDup_submseteq; [done|];
       intros x [->|Hx]%elem_of_cons; [done|by apply Hseen].
  - cbn in Hle. lia.
  - cbn [ConfigXMLGenerator.generate].
    apply dict_get_is_Some in Hr as [o Ho].
    rewrite (deref_Ok _ _ _ Ho). cbn [mbind outcome_bind].
    apply for_each_bind_Ok. intros c Hc.
    assert (child_of classes r c) as Hrc by (by exists o).
    apply (IH (r :: seen)); [done| | | |cbn; lia].
    + intros a [->|Ha]%elem_of_cons.
      * split; [by apply dict_get_is_Some|by apply tc_once].
      * destruct (Hseen a Ha) as [? ?]. split; [done|by eapply tc_r].
    + intros x Hx. apply Hacyc. by eapply rtc_l.
    + by apply (child_of_bound r).
Qed.

(** C9. On a store where every reference denotes an object, rendering a
    class below which the containment graph has no cycle returns, at every
    recursion limit from the number of classes on; below a cycle it
    exceeds every recursion limit; so it returns at some limit exactly
    when there is no cycle. *)
Theorem generate_terminates_iff_acyclic (r : ref) :
  r ∈ classes.*1 →
  (acyclic_from classes r →
   ∃ e, ∀ limit, (length classes ≤ limit)%nat →
                 ConfigXMLGenerator.generate limit classes r = Ok e) ∧
  (reaches_cycle classes r →
   ∀ limit,
     ConfigXMLGenerator.generate limit classes r = Raise RecursionError) ∧
  ((∃ limit e, ConfigXMLGenerator.generate limit classes r = Ok e) ↔
   acyclic_from classes r).
Proof using Hrefs.
  intros Hr.
  assert (acyclic_from classes r →
          ∃ e, ∀ limit, (length classes ≤ limit)%nat →
                 ConfigXMLGenerator.generate limit classes r = Ok e) as Hterm.
  { intros Hacyc.
    destruct (generate_acyclic (length classes) [] r) as [e He];
      [constructor|by intros ? ?%elem_of_nil|done|done|cbn; lia|].
    exists e. intros limit Hle. by eapply generate_mono_le. }
  split_and!; [done| |split].
  - intros Hcyc limit. by apply generate_cycle.
  - intros (limit & e & He) c Hrc Hc.
    rewrite generate_cycle in He; [done|by exists c].
  - intros [e He]%Hterm. exists (length classes), e. by apply He.
Qed.
End rendering.

(** ** The properties at the sample inputs *)

Lemma elements_perm (s : gset string) : elements s ≡ₚ elements s.
Proof. reflexivity. Qed.

Lemma delta_round_trip_witness :
  ∃ delta r,
    DeltaJSONGenerator.generate json_eqb elements sample_base sample_patched =
      Ok delta ∧
    ResPatchedConfigGenerator.generate sample_heap 0 delta =
      Ok (<[r := sample_patched]> sample_heap, r) ∧
    sample_heap !! r = None.
Proof.
  destruct (delta_round_trip json_eqb elements elements_perm sample_heap 0
              sample_base sample_patched eq_refl)
    as (delta & r & result & Hdiff & Happly & Hfresh & Hstruct & _).
  exists delta, r. rewrite (Hstruct json_eqb_spec) in Happly.
  split; [exact Hdiff|]. split; [exact Happly|exact Hfresh].
Defined.

(** §8 of the specification, by evaluation. *)
Example diff_sample :
  DeltaJSONGenerator.generate Z.eqb elements
    ({[ "a" := 1; "b" := 2 ]} : gmap string Z)%Z
    ({[ "b" := 3; "c" := 4 ]} : gmap string Z)%Z =
  Ok {| additions := [{| add_key := "c"; add_value := 4%Z |}];
        deletions := ["a"];
        updates := [{| upd_key := "b"; upd_from := 2%Z; upd_to := 3%Z |}] |}.
Proof. vm_compute. reflexivity. Qed.

Example apply_sample :
  apply_spec ({[ "a" := 1; "b" := 2 ]} : gmap string Z)%Z
    {| additions := [{| add_key := "c"; add_value := 4%Z |}];
       deletions := ["a"];
       updates := [{| upd_key := "b"; upd_from := 2%Z; upd_to := 3%Z |}] |} =
  ({[ "b" := 3; "c" := 4 ]} : gmap string Z)%Z.
Proof. vm_compute. reflexivity. Qed.

Example render_sample :
  ConfigXMLGenerator.generate 2 (ModelParser.classes sample_model) (Some "A") =
  Ok (Elem (Some "A") None
        [Elem (Some "id") (Some "int") [];
         Elem (Some "B") None [Elem (Some "id") (Some "int") []];
         Elem (Some "C") None [Elem (Some "id") (Some "int") []]]).
Proof. vm_compute. reflexivity. Qed.

(** The proviso of the round-trip law is needed: under an [==] that equates
    [1] and [True] the delta from [{"a": 1}] to [{"a": True}] is empty, and
    applying it leaves [{"a": 1}]. *)
Remark round_trip_without_structural_equality :
  DeltaJSONGenerator.generate scalar_py_eq elements
    ({[ "a" := SInt 1 ]} : gmap string scalar)
    ({[ "a" := SBool true ]} : gmap string scalar) = Ok empty_delta ∧
  apply_spec ({[ "a" := SInt 1 ]} : gmap string scalar) empty_delta ≠
    {[ "a" := SBool true ]}.
Proof.
  split; [vm_compute; reflexivity|].
  intros H. apply (f_equal (λ m : gmap string scalar, m !! "a")) in H.
  vm_compute in H. discriminate H.
Qed.


Lemma apply_is_sequential_witness :
  ∃ h' r,
    ResPatchedConfigGenerator.generate sample_heap 0 inconsistent_delta =
      Ok (h', r) ∧
    h' !! 0 = Some sample_base ∧
    h' !! r = Some (apply_spec sample_base inconsistent_delta).
Proof.
  destruct (apply_is_sequential sample_heap 0 sample_base inconsistent_delta
              eq_refl)
    as (h' & r & Hgen & _ & _ & Hbase & Hres & _).
  exists h', r. split; [exact Hgen|]. split; [exact Hbase|exact Hres].
Defined.

Lemma empty_delta_identity_witness :
  DeltaJSONGenerator.generate json_eqb elements sample_base sample_base =
  Ok empty_delta.
Proof.
  apply (proj1 (proj2 (empty_delta_identity json_eqb elements elements_perm
                         sample_heap 0 sample_base eq_refl))).
  intros k v _. apply json_eqb_refl.
Defined.

(** C10 as stated fails.  The delta from a dictionary to itself is not
    empty when the dictionary holds the float nan: [config[key] !=
    patched_config[key]] is true of nan and itself, so the key is recorded
    as an update from nan to nan. *)
Lemma diff_self_with_nan :
  DeltaJSONGenerator.generate number_py_eq elements
    ({[ "ratio" := NaN ]}) ({[ "ratio" := NaN ]}) =
    Ok {| additions := []; deletions := [];
          updates := [{| upd_key := "ratio"; upd_from := NaN;
                         upd_to := NaN |}] |} ∧
  DeltaJSONGenerator.generate number_py_eq elements
    ({[ "ratio" := NaN ]}) ({[ "ratio" := NaN ]}) ≠ Ok empty_delta.
Proof. split; [vm_compute; reflexivity|vm_compute; discriminate]. Qed.

Lemma sample_wf : wf_store (ModelParser.classes sample_model).
Proof. apply wf_storeb_wf. vm_compute. reflexivity. Qed.

Lemma cyclic_wf : wf_store (ModelParser.classes cyclic_model).
Proof. apply wf_storeb_wf. vm_compute. reflexivity. Qed.

Lemma sample_child_of a b :
  child_of (ModelParser.classes sample_model) a b →
  a = Some "A" ∧ b ≠ Some "A".
Proof.
  intros (o & Ho & Hb). unfold sample_model in Ho.
  cbn [ModelParser.classes dict_get] in Ho.
  repeat case_decide; simplify_eq; cbn in Hb.
  - split; [done|]. intros ->.
    repeat (apply elem_of_cons in Hb as [Hb|Hb]; [discriminate Hb|]).
    by apply elem_of_nil in Hb.
  - by apply elem_of_nil in Hb.
  - by apply elem_of_nil in Hb.
Qed.

Lemma sample_acyclic :
  acyclic_from (ModelParser.classes sample_model) (Some "A").
Proof.
  intros c _ Hc.
  inversion Hc as [? ? Hstep|? y ? Hstep Hrest]; subst.
  - apply sample_child_of in Hstep as [-> ?]. done.
  - apply sample_child_of in Hstep as [-> Hy].
    inversion Hrest as [? ? Hstep|? ? ? Hstep _]; subst;
      apply sample_child_of in Hstep as [-> _]; done.
Qed.

Lemma cyclic_reaches_cycle :
  reaches_cycle (ModelParser.classes cyclic_model) (Some "A").
Proof.
  exists (Some "A"). split; [reflexivity|].
  apply (tc_l _ _ (Some "B")); [|apply tc_once].
  - eexists. split; [reflexivity|]. by left.
  - eexists. split; [reflexivity|]. by left.
Qed.

Lemma sample_root_bound :
  Some "A" ∈ (ModelParser.classes sample_model).*1.
Proof. by left. Qed.

Lemma cyclic_root_bound :
  Some "A" ∈ (ModelParser.classes cyclic_model).*1.
Proof. by left. Qed.

Lemma generate_terminates_iff_acyclic_witness :
  (∃ e, ∀ limit, (3 ≤ limit)%nat →
     ConfigXMLGenerator.generate limit (ModelParser.classes sample_model)
       (Some "A") = Ok e) ∧
  (∀ limit,
     ConfigXMLGenerator.generate limit (ModelParser.classes cyclic_model)
       (Some "A") = Raise RecursionError).
Proof.
  split.
  - apply (proj1 (generate_terminates_iff_acyclic _ (wf_refs _ sample_wf)
                    (Some "A")
                    sample_root_bound)).
    exact sample_acyclic.
  - apply (proj1 (proj2 (generate_terminates_iff_acyclic _
                           (wf_refs _ cyclic_wf) (Some "A")
                           cyclic_root_bound))).
    exact cyclic_reaches_cycle.
Defined.

(** * Further properties *)

(** ** Applying a delta *)

Section apply_properties.
Context {V : Type}.
Implicit Types (m base : gmap string V) (h : dict_heap V) (delta : Delta V).

Lemma apply_spec_idemp base delta :
  apply_spec (apply_spec base delta) delta = apply_spec base delta.
Proof.
  apply map_eq. intros k. rewrite (apply_spec_lookup (apply_spec base delta)).
  rewrite (apply_spec_lookup base).
  destruct (last_value add_key add_value k _); [done|].
  destruct (last_value upd_key upd_to k _); [done|].
  by destruct (decide _).
Qed.

(** Applying a delta to its own result changes nothing more: the second
    result is a further new dictionary with the bindings of the first.
    This holds for every delta, consistent with [base] or not. *)
Theorem apply_twice h config base delta :
  h !! config = Some base →
  ∃ h1 r1 h2 r2 m,
    ResPatchedConfigGenerator.generate h config delta = Ok (h1, r1) ∧
    ResPatchedConfigGenerator.generate h1 r1 delta = Ok (h2, r2) ∧
    r1 ≠ r2 ∧ h2 !! r1 = Some m ∧ h2 !! r2 = Some m.
Proof.
  intros Hc. pose proof (fresh_loc_unused h) as Hfresh.
  set (r1 := fresh (dom h)) in *.
  set (h1 := <[r1 := apply_spec base delta]> h).
  pose proof (fresh_loc_unused h1) as Hfresh1.
  assert (h1 !! r1 = Some (apply_spec base delta)) as Hr1
    by apply lookup_insert_eq.
  exists h1, r1, (<[fresh (dom h1) := apply_spec base delta]> h1),
    (fresh (dom h1)), (apply_spec base delta).
  assert (r1 ≠ fresh (dom h1)) as Hne by (intros Heq; congruence).
  split_and!.
  - by apply apply_generate.
  - rewrite (apply_generate h1 r1 _ _ Hr1). by rewrite apply_spec_idemp.
  - done.
  - by rewrite lookup_insert_ne.
  - apply lookup_insert_eq.
Qed.

(** The keys of the result: those of [base] that are not deleted, and
    every key of an update or of an addition, deleted or not. *)
Theorem apply_keys h config base delta :
  h !! config = Some base →
  ∃ h' r m,
    ResPatchedConfigGenerator.generate h config delta = Ok (h', r) ∧
    h' !! r = Some m ∧
    ∀ k, k ∈ dom m ↔
         (k ∈ dom base ∧ k ∉ deletions delta) ∨
         k ∈ upd_key <$> updates delta ∨
         k ∈ add_key <$> additions delta.
Proof.
  intros Hc. eexists _, _, _. split; [by apply apply_generate|].
  split; [apply lookup_insert_eq|]. intros k.
  rewrite !elem_of_dom, apply_spec_lookup.
  destruct (last_value add_key add_value k _) as [v|] eqn:Hadd.
  { split; [|by eexists]. intros _. right. right.
    apply last_value_Some in Hadd as (a & Ha & <- & _).
    by apply list_elem_of_fmap_2. }
  destruct (last_value upd_key upd_to k _) as [v|] eqn:Hupd.
  { split; [|by eexists]. intros _. right. left.
    apply last_value_Some in Hupd as (u & Hu & <- & _).
    by apply list_elem_of_fmap_2. }
  apply last_value_None in Hadd, Hupd.
  destruct (decide (k ∈ deletions delta)) as [Hdel|Hdel].
  - split; [by intros [? ?]|]. by intros [[_ ?]|[?|?]].
  - split; [by left|]. by intros [[? _]|[?|?]].
Qed.

Lemma generate_unfold h config delta :
  ResPatchedConfigGenerator.generate h config delta =
  match h !! config with
  | Some base =>
      Ok (<[fresh (dom h) := apply_spec base delta]> h, fresh (dom h))
  | None => Raise DanglingRef
  end.
Proof.
  destruct (h !! config) as [base|] eqn:Hc; [by apply apply_generate|].
  unfold ResPatchedConfigGenerator.generate, dict_copy. by rewrite Hc.
Qed.

Lemma foldl_insert_ext {A : Type} (key_of : A → string) (v1 v2 : A → V)
    (xs ys : list A) m :
  (λ x, (key_of x, v1 x)) <$> xs = (λ y, (key_of y, v2 y)) <$> ys →
  foldl (λ m x, <[key_of x := v1 x]> m) m xs =
  foldl (λ m y, <[key_of y := v2 y]> m) m ys.
Proof.
  revert ys m. induction xs as [|x xs IH]; intros [|y ys] m; try done.
  cbn [fmap list_fmap foldl]. intros [= Hk Hv Hrest].
  rewrite Hk, Hv. by apply IH.
Qed.

(** [generate] reads the key and the new value of an update and nothing
    else: the recorded old value is neither compared with [base] nor
    used, whatever it is. *)
Theorem apply_ignores_from h config delta delta' :
  additions delta' = additions delta →
  deletions delta' = deletions delta →
  (λ u, (upd_key u, upd_to u)) <$> updates delta' =
    (λ u, (upd_key u, upd_to u)) <$> updates delta →
  ResPatchedConfigGenerator.generate h config delta' =
  ResPatchedConfigGenerator.generate h config delta.
Proof.
  intros Ha Hd Hu. rewrite !generate_unfold.
  destruct (h !! config) as [base|]; [|done].
  unfold apply_spec, set_updates. rewrite Ha, Hd.
  by rewrite (foldl_insert_ext upd_key upd_to upd_to
                (updates delta') (updates delta)).
Qed.
End apply_properties.

(** ** Computing a delta *)

Section diff_properties.
Context {V : Type}.
Variable py_eq : V → V → bool.
Variable iter : gset string → list string.
Hypothesis iter_perm : ∀ s, iter s ≡ₚ elements s.
Implicit Types (base patched : gmap string V).

(** No key is in two buckets of a computed delta. *)
Theorem diff_buckets_disjoint base patched :
  ∃ delta,
    DeltaJSONGenerator.generate py_eq iter base patched = Ok delta ∧
    ∀ k,
      ¬ (k ∈ add_key <$> additions delta ∧ k ∈ deletions delta) ∧
      ¬ (k ∈ add_key <$> additions delta ∧ k ∈ upd_key <$> updates delta) ∧
      ¬ (k ∈ deletions delta ∧ k ∈ upd_key <$> updates delta).
Proof using iter_perm.
  exists (diff_of py_eq iter base patched).
  split; [by apply diff_generate|]. intros k. split_and!.
  - intros [(a & -> & [Ha _]%(elem_of_diff_additions _ _ iter_perm))
              %list_elem_of_fmap
            [[? Hb] _]%(elem_of_diff_deletions _ _ iter_perm)].
    congruence.
  - intros [(a & -> & [Ha _]%(elem_of_diff_additions _ _ iter_perm))
              %list_elem_of_fmap
            (u & Hk & (Hb & _)%(elem_of_diff_updates _ _ iter_perm))
              %list_elem_of_fmap].
    congruence.
  - intros [[_ Hp]%(elem_of_diff_deletions _ _ iter_perm)
            (u & -> & (_ & Hu & _)%(elem_of_diff_updates _ _ iter_perm))
              %list_elem_of_fmap].
    congruence.
Qed.

(** The computed delta is empty exactly when the two dictionaries have the
    same keys and [==] holds between the two values of every key. *)
Theorem diff_empty_iff base patched :
  DeltaJSONGenerator.generate py_eq iter base patched = Ok empty_delta ↔
  dict_eq py_eq base patched.
Proof using iter_perm.
  rewrite diff_generate by done. split.
  - intros [= Hadd Hdel Hupd] k.
    destruct (base !! k) as [a|] eqn:Ha, (patched !! k) as [b|] eqn:Hb;
      [|exfalso..|done].
    + destruct (py_eq a b) eqn:Hab; [done|]. exfalso.
      assert ({| upd_key := k; upd_from := a; upd_to := b |}
              ∈ updates (diff_of py_eq iter base patched)) as Hin
        by (by apply elem_of_diff_updates).
      cbn in Hin. rewrite Hupd in Hin. by apply elem_of_nil in Hin.
    + assert (k ∈ deletions (diff_of py_eq iter base patched)) as Hin
        by (apply elem_of_diff_deletions; [done|]; by rewrite Ha).
      cbn in Hin. rewrite Hdel in Hin. by apply elem_of_nil in Hin.
    + assert ({| add_key := k; add_value := b |}
              ∈ additions (diff_of py_eq iter base patched)) as Hin
        by (by apply elem_of_diff_additions).
      cbn in Hin. rewrite Hadd in Hin. by apply elem_of_nil in Hin.
  - intros Heq. f_equal.
    assert (additions (diff_of py_eq iter base patched) = []) as Hadd.
    { apply elem_of_nil_inv.
      intros a [Ha Hb]%(elem_of_diff_additions _ _ iter_perm).
      specialize (Heq (add_key a)). by rewrite Ha, Hb in Heq. }
    assert (deletions (diff_of py_eq iter base patched) = []) as Hdel.
    { apply elem_of_nil_inv.
      intros k [[a Ha] Hb]%(elem_of_diff_deletions _ _ iter_perm).
      specialize (Heq k). by rewrite Ha, Hb in Heq. }
    assert (updates (diff_of py_eq iter base patched) = []) as Hupd.
    { apply elem_of_nil_inv.
      intros u (Ha & Hb & Hne)%(elem_of_diff_updates _ _ iter_perm).
      specialize (Heq (upd_key u)). rewrite Ha, Hb in Heq. congruence. }
    destruct (diff_of py_eq iter base patched). cbn in *. by subst.
Qed.

(** The delta computed the other way round mirrors the delta: additions
    and deletions trade places, and, [==] being symmetric, every update is
    there with its two values swapped. *)
Theorem diff_reversed base patched :
  ∃ delta back,
    DeltaJSONGenerator.generate py_eq iter base patched = Ok delta ∧
    DeltaJSONGenerator.generate py_eq iter patched base = Ok back ∧
    (∀ k, k ∈ deletions back ↔ k ∈ add_key <$> additions delta) ∧
    (∀ k, k ∈ add_key <$> additions back ↔ k ∈ deletions delta) ∧
    ((∀ a b, py_eq a b = py_eq b a) →
     ∀ u, u ∈ updates delta ↔ swap_update u ∈ updates back).
Proof using iter_perm.
  exists (diff_of py_eq iter base patched), (diff_of py_eq iter patched base).
  split; [by apply diff_generate|]. split; [by apply diff_generate|].
  split_and!.
  - intros k. rewrite elem_of_diff_deletions by done.
    rewrite list_elem_of_fmap. split.
    + intros [[v Hv] Hb].
      exists {| add_key := k; add_value := v |}. split; [done|].
      by apply elem_of_diff_additions.
    + intros (a & -> & [Hb Hp]%(elem_of_diff_additions _ _ iter_perm)).
      by rewrite Hp.
  - intros k. rewrite elem_of_diff_deletions by done.
    rewrite list_elem_of_fmap. split.
    + intros (a & -> & [Hp Hb]%(elem_of_diff_additions _ _ iter_perm)).
      by rewrite Hb.
    + intros [[v Hv] Hp].
      exists {| add_key := k; add_value := v |}. split; [done|].
      by apply elem_of_diff_additions.
  - intros Hsym u. rewrite !elem_of_diff_updates by done. cbn.
    rewrite (Hsym (upd_to u)). split; intros (? & ? & ?); done.
Qed.

Lemma length_iter (s : gset string) : length (iter s) = size s.
Proof using iter_perm. by rewrite iter_perm. Qed.

Lemma length_adds_of patched keys :
  (∀ k, k ∈ keys → is_Some (patched !! k)) →
  length (adds_of patched keys) = length keys.
Proof.
  induction keys as [|key keys IH]; intros Hin; [done|].
  rewrite adds_of_cons. destruct (Hin key) as [v ->]; [by left|].
  cbn. f_equal. apply IH. intros; apply Hin; by right.
Qed.

(** Additions and deletions account for the difference in size: the size
    of [patched] plus the number of deletions is the size of [base] plus
    the number of additions. *)
Theorem diff_size_balance base patched :
  ∃ delta,
    DeltaJSONGenerator.generate py_eq iter base patched = Ok delta ∧
    size patched + length (deletions delta) =
    size base + length (additions delta).
Proof using iter_perm.
  exists (diff_of py_eq iter base patched).
  split; [by apply diff_generate|]. cbn.
  rewrite length_adds_of, !length_iter; cycle 1.
  { intros k [Hk _]%(elem_of_iter _ iter_perm)%elem_of_difference.
    by apply elem_of_dom. }
  rewrite <- !size_dom.
  assert (size (dom patched) =
          size (dom patched ∖ dom base) + size (dom patched ∩ dom base))
    as ->.
  { rewrite <- size_union; cycle 1.
    { intros k [_ ?]%elem_of_difference [_ ?]%elem_of_intersection. done. }
    f_equal. apply set_eq. intros k. rewrite elem_of_union,
      elem_of_difference, elem_of_intersection.
    destruct (decide (k ∈ dom base)); tauto. }
  assert (size (dom base) =
          size (dom base ∖ dom patched) + size (dom patched ∩ dom base))
    as ->.
  { rewrite <- size_union; cycle 1.
    { intros k [_ ?]%elem_of_difference [? _]%elem_of_intersection. done. }
    f_equal. apply set_eq. intros k. rewrite elem_of_union,
      elem_of_difference, elem_of_intersection.
    destruct (decide (k ∈ dom patched)); tauto. }
  lia.
Qed.
End diff_properties.

(** ** Multiplicities *)

Lemma prefix_nonempty sep :
  sep ≠ EmptyString → String.prefix sep EmptyString = false.
Proof. intros Hsep. by destruct sep. Qed.

Lemma prefix_app sep x y :
  String.prefix sep x = true → String.prefix sep (x +:+ y) = true.
Proof.
  revert x. induction sep as [|c sep IH]; intros x;
    [intros _; by destruct (x +:+ y)|].
  destruct x as [|c' x]; [by cbn|].
  change (String c' x +:+ y) with (String c' (x +:+ y)). cbn.
  destruct (Ascii.ascii_dec c c'); [apply IH|done].
Qed.

(** The text before the leftmost occurrence holds no occurrence. *)
Lemma cut_Some_before sep s a b :
  sep ≠ EmptyString → cut sep s = Some (a, b) → contains sep a = false.
Proof.
  intros Hsep. revert a. induction s as [|c s IH]; intros a; cbn [cut].
  - destruct (String.prefix sep EmptyString); [|done].
    intros [= <- <-]. cbn [contains]. by rewrite prefix_nonempty.
  - destruct (String.prefix sep (String c s)) eqn:Hp.
    + intros [= <- <-]. cbn [contains]. by rewrite prefix_nonempty.
    + destruct (cut sep s) as [[a' b']|] eqn:Hcut; [|done].
      intros [= <- <-]. cbn [contains]. rewrite (IH a' eq_refl), orb_false_r.
      apply cut_Some in Hcut as [Hs _].
      destruct (String.prefix sep (String c a')) eqn:Hpa; [|done].
      apply (prefix_app _ _ (sep +:+ b')) in Hpa.
      change (String c a' +:+ sep +:+ b')
        with (String c (a' +:+ sep +:+ b')) in Hpa.
      rewrite <- Hs in Hpa. congruence.
Qed.

Lemma split_two sep s a b :
  sep ≠ EmptyString →
  split sep s = [a; b] ↔ cut sep s = Some (a, b) ∧ contains sep b = false.
Proof.
  intros Hsep. rewrite split_unfold by done.
  destruct (cut sep s) as [[a' b']|] eqn:Hcut;
    [|split; [discriminate|intros [? _]; discriminate]].
  rewrite (split_unfold sep b') by done. split.
  - destruct (cut sep b') as [[? ?]|] eqn:Hcut';
      [intros [= _ _ Hnil]; by apply split_nonempty in Hnil|].
    intros [= <- <-]. split; [done|]. by apply cut_None.
  - intros [[= <- <-] Hb%cut_None]. by rewrite Hb.
Qed.

(** A multiplicity with [".."] parses exactly when no [".."] is left after
    the first one; the bounds are then the text before and after the first
    [".."], and neither contains a [".."].  So ["1...2"] has the bounds
    ["1"] and [".2"], and ["1....2"] is a [ValueError]. *)
Theorem parse_multiplicity_by_first_dots (s : string) :
  contains ".." s = true →
  ∃ a b,
    cut ".." s = Some (a, b) ∧ s = a +:+ ".." +:+ b ∧
    contains ".." a = false ∧
    parse_multiplicity (Some s) =
      if contains ".." b then Raise ValueError else Ok (a, b).
Proof.
  intros Hc. destruct (cut ".." s) as [[a b]|] eqn:Hcut; cycle 1.
  { apply cut_None in Hcut. congruence. }
  exists a, b. split; [done|].
  split; [by apply cut_Some in Hcut as [? _]|].
  split; [by eapply cut_Some_before|].
  unfold parse_multiplicity. rewrite Hc.
  destruct (contains ".." b) eqn:Hb.
  - rewrite split_unfold, Hcut by done.
    rewrite (split_unfold ".." b) by done.
    destruct (cut ".." b) as [[b1 b2]|] eqn:Hcut'.
    + rewrite (split_unfold ".." b2) by done.
      by destruct (cut ".." b2) as [[? ?]|].
    + apply cut_None in Hcut'. congruence.
  - by rewrite (proj2 (split_two ".." s a b ltac:(done))).
Qed.

Lemma parse_multiplicity_by_first_dots_witness :
  parse_multiplicity (Some "1...2") = Ok ("1", ".2") ∧
  parse_multiplicity (Some "1....2") = Raise ValueError.
Proof.
  split.
  - destruct (parse_multiplicity_by_first_dots "1...2" eq_refl)
      as (a & b & Hcut & _ & _ & Hparse).
    injection Hcut as <- <-. exact Hparse.
  - destruct (parse_multiplicity_by_first_dots "1....2" eq_refl)
      as (a & b & Hcut & _ & _ & Hparse).
    injection Hcut as <- <-. exact Hparse.
Defined.

(** ** Declaring classes *)

Lemma parse_classes_keys_order (ces : list ClassElem) :
  (foldl ModelParser.parse_class [] ces).*1 =
  reverse (remove_dups (reverse
    ((λ ce, get (class_attrib ce) "name") <$> ces))).
Proof.
  induction ces as [|ce ces IH] using rev_ind; [done|].
  rewrite foldl_app, fmap_app, reverse_app. cbn [foldl fmap list_fmap].
  rewrite parse_class_set, dict_set_keys, IH. cbn [reverse rev_append app].
  change (rev_append [?x] []) with [x]. cbn [app remove_dups].
  set (n := get (class_attrib ce) "name").
  set (names := (λ ce, get (class_attrib ce) "name") <$> ces).
  destruct (decide_rel elem_of n (reverse names)) as [Hin|Hin].
  - rewrite decide_True; [done|].
    by rewrite elem_of_reverse, elem_of_remove_dups.
  - rewrite decide_False; [by rewrite reverse_cons|].
    by rewrite elem_of_reverse, elem_of_remove_dups.
Qed.

(** The class dictionary of a built model lists every declared name once,
    in the order of the first declarations. *)
Theorem classes_in_first_declaration_order (xml : Document)
    (p : ModelParser.t) :
  ModelParser.new xml = Ok p →
  (ModelParser.classes p).*1 = reverse (remove_dups (reverse (declared xml))) ∧
  (length (ModelParser.classes p) ≤ length (class_elems xml))%nat.
Proof.
  intros [_ (Hkeys & _ & _)%link_loop]%new_Ok_inv.
  assert ((ModelParser.classes p).*1 =
          reverse (remove_dups (reverse (declared xml)))) as Hord
    by (rewrite Hkeys; apply parse_classes_keys_order).
  split; [done|].
  rewrite <- (length_fmap fst), Hkeys.
  rewrite <- (length_fmap (λ ce, get (class_attrib ce) "name")
                (class_elems xml)).
  apply submseteq_length, NoDup_submseteq; [apply parse_classes_NoDup|].
  intros k. by rewrite parse_classes_keys.
Qed.

Lemma classes_in_first_declaration_order_witness :
  (ModelParser.classes sample_model).*1 = [Some "A"; Some "B"; Some "C"].
Proof.
  exact (proj1 (classes_in_first_declaration_order sample_xml sample_model
                  sample_model_built)).
Defined.

(** In a built model the name, root flag, documentation and attributes of a
    class are those of the last [Class] element with its name: a class is
    root only if that element's [isRoot] is the text ["true"], and its
    documentation is empty when the element has none. *)
Theorem last_declaration_wins (xml : Document) (p : ModelParser.t)
    (k : ref) (o : ClassInfo.t) :
  ModelParser.new xml = Ok p →
  dict_get k (ModelParser.classes p) = Some o →
  ∃ ce,
    last (filter (λ ce, get (class_attrib ce) "name" = k) (class_elems xml)) =
      Some ce ∧
    ClassInfo.name o = k ∧
    (ClassInfo.is_root o = true ↔
     class_attrib ce !! "isRoot" = Some "true") ∧
    ClassInfo.documentation o =
      default EmptyString (class_attrib ce !! "documentation") ∧
    ClassInfo.attributes o =
      (λ ae, {| Attribute.name := ae !! "name";
                Attribute.type := ae !! "type" |}) <$> attribute_elems ce.
Proof.
  intros [_ (_ & _ & Hget)%link_loop]%new_Ok_inv Ho.
  destruct (Hget k o Ho) as (o0 & Ho0 & Hl).
  rewrite parse_classes_lookup in Ho0.
  apply fmap_Some in Ho0 as (ce & Hce & ->). exists ce.
  pose proof Hce as [Hname _]%last_Some_elem_of%list_elem_of_filter.
  split_and!.
  - done.
  - by rewrite (linked_name _ _ _ _ Hl).
  - rewrite (linked_is_root _ _ _ _ Hl). cbn. apply bool_decide_eq_true.
  - by rewrite (linked_documentation _ _ _ _ Hl).
  - by rewrite (linked_attributes _ _ _ _ Hl).
Qed.

Lemma last_declaration_wins_witness :
  ∃ ce,
    last (filter (λ ce, get (class_attrib ce) "name" = Some "A")
            (class_elems sample_xml)) = Some ce ∧
    class_attrib ce !! "isRoot" = Some "true".
Proof.
  destruct (last_declaration_wins sample_xml sample_model (Some "A") _
              sample_model_built eq_refl) as (ce & Hce & _ & Hroot & _).
  exists ce. split; [exact Hce|]. apply Hroot. reflexivity.
Defined.

(** ** Linking, as a whole *)

Lemma link_loop_Ok aggs classes :
  (∀ a, a ∈ aggs → source a ∈ classes.*1 ∧ target a ∈ classes.*1 ∧
                   ∃ mm, parse_multiplicity (sourceMultiplicity a) = Ok mm) →
  ∃ classes', for_each ModelParser.link aggs classes = Ok classes'.
Proof.
  revert classes. induction aggs as [|a aggs IH]; intros classes Hall.
  - by exists classes.
  - cbn [for_each].
    destruct (Hall a) as (Hs & Ht & [[mn mx] Hm]); [by left|].
    apply dict_get_is_Some in Hs as [s Hs], Ht as [t Ht].
    rewrite (link_Ok _ _ _ _ _ _ Hs Ht Hm). cbn [mbind outcome_bind].
    apply IH. intros a' Ha'. rewrite link_store_keys. apply Hall. by right.
Qed.

Lemma new_unfold xml :
  ModelParser.new xml =
  classes ← for_each ModelParser.link
               (ModelParser.parse_aggregation <$> aggregation_elems xml)
               (foldl ModelParser.parse_class [] (class_elems xml));
  Ok {| ModelParser.classes := classes;
        ModelParser.aggregations :=
          ModelParser.parse_aggregation <$> aggregation_elems xml |}.
Proof.
  unfold ModelParser.new, ModelParser.parse_xml.
  cbn [ModelParser.classes ModelParser.aggregations].
  by rewrite parse_aggregations.
Qed.

(** A document yields a model exactly when every [Aggregation] element
    names declared classes as source and target and carries a
    [sourceMultiplicity] that parses; nothing else can make [ModelParser]
    fail on a parsed document. *)
Theorem model_builds_iff (xml : Document) :
  (∃ p, ModelParser.new xml = Ok p) ↔
  ∀ e, e ∈ aggregation_elems xml →
       get e "source" ∈ declared xml ∧ get e "target" ∈ declared xml ∧
       ∃ mm, parse_multiplicity (get e "sourceMultiplicity") = Ok mm.
Proof.
  split.
  - intros [p [Haggs Hloop]%new_Ok_inv] e He.
    apply link_loop in Hloop as (_ & Hall & _).
    destruct (Hall (ModelParser.parse_aggregation e)) as (Hs & Ht & Hm).
    { rewrite Haggs. by apply list_elem_of_fmap_2. }
    by apply parse_classes_keys in Hs, Ht.
  - intros Hall. rewrite new_unfold.
    destruct (link_loop_Ok
                (ModelParser.parse_aggregation <$> aggregation_elems xml)
                (foldl ModelParser.parse_class [] (class_elems xml)))
      as [classes ->]; [|by eexists].
    intros a (e & -> & He)%list_elem_of_fmap.
    rewrite !parse_classes_keys. by apply Hall.
Qed.

(** The first edge that fails decides how building fails: when the edges
    before it link and it names declared classes, the exception is the one
    its multiplicity raises, [TypeError] for an element without
    [sourceMultiplicity] (not caught by [main]) and [ValueError] for a text
    with a second [".."] (caught); the edges after it play no part. *)
Theorem first_bad_multiplicity_decides (xml : Document)
    (pre : list xml_attrib) (e : xml_attrib) (suf : list xml_attrib)
    (x : exn) :
  aggregation_elems xml = pre ++ e :: suf →
  (∀ e', e' ∈ pre →
         get e' "source" ∈ declared xml ∧ get e' "target" ∈ declared xml ∧
         ∃ mm, parse_multiplicity (get e' "sourceMultiplicity") = Ok mm) →
  get e "source" ∈ declared xml → get e "target" ∈ declared xml →
  parse_multiplicity (get e "sourceMultiplicity") = Raise x →
  ModelParser.new xml = Raise x ∧
  (x = TypeError ∧ e !! "sourceMultiplicity" = None ∧
   main_catches x = false ∨
   x = ValueError ∧ is_Some (e !! "sourceMultiplicity") ∧
   main_catches x = true).
Proof.
  intros Helems Hpre Hs Ht Hm. split.
  - rewrite new_unfold, Helems, fmap_app, fmap_cons.
    rewrite (link_loop_first_failure _ _ _ _ x); [done|..].
    + intros a (e' & -> & He')%list_elem_of_fmap.
      rewrite !parse_classes_keys. by apply Hpre.
    + intros classes1 Hkeys. unfold ModelParser.link.
      assert (∀ k, k ∈ declared xml → dict_getitem classes1 k = Ok k) as Hk.
      { intros k Hin. unfold dict_getitem.
        destruct (dict_get k classes1) eqn:Hget; [done|].
        apply dict_get_None in Hget. exfalso. apply Hget.
        rewrite Hkeys. by apply parse_classes_keys. }
      cbn [ModelParser.parse_aggregation source target sourceMultiplicity].
      rewrite (Hk _ Hs), (Hk _ Ht). cbn [mbind outcome_bind].
      by rewrite Hm.
  - unfold get in Hm. destruct (e !! "sourceMultiplicity") as [m|] eqn:He.
    + right. apply parse_multiplicity_raises in Hm as [-> _]. by eauto.
    + left. by injection Hm as <-.
Qed.

Lemma first_bad_multiplicity_decides_witness :
  ModelParser.new bad_multiplicity_xml = Raise ValueError.
Proof.
  refine (proj1 (first_bad_multiplicity_decides bad_multiplicity_xml
                   [sample_edge "B" "A" "1"] (sample_edge "C" "A" "1..2..3")
                   [sample_edge "D" "A" "1"] ValueError eq_refl _ _ _ eq_refl)).
  - intros e' ->%list_elem_of_singleton.
    split; [by right; left|]. split; [by left|]. by eexists.
  - by right; right; left.
  - by left.
Defined.

Lemma link_ext classes a a' :
  source a = source a' → target a = target a' →
  sourceMultiplicity a = sourceMultiplicity a' →
  ModelParser.link classes a = ModelParser.link classes a'.
Proof. unfold ModelParser.link. by intros -> -> ->. Qed.

Lemma link_loop_ext aggs aggs' classes :
  Forall2 (λ a a', source a = source a' ∧ target a = target a' ∧
                   sourceMultiplicity a = sourceMultiplicity a') aggs aggs' →
  for_each ModelParser.link aggs classes =
  for_each ModelParser.link aggs' classes.
Proof.
  intros Hall. revert classes.
  induction Hall as [|a a' aggs aggs' (Hs & Ht & Hm) _ IH]; intros classes;
    [done|].
  cbn [for_each]. rewrite (link_ext classes a a') by done.
  destruct (ModelParser.link classes a'); cbn [mbind outcome_bind]; [|done].
  apply IH.
Qed.

(** [targetMultiplicity] is read and never used: two documents with the
    same [Class] elements, whose [Aggregation] elements agree one by one on
    [source], [target] and [sourceMultiplicity], build the same classes or
    fail with the same exception. *)
Theorem target_multiplicity_unused (xml xml' : Document) :
  class_elems xml' = class_elems xml →
  Forall2 (λ e e', e' !! "source" = e !! "source" ∧
                   e' !! "target" = e !! "target" ∧
                   e' !! "sourceMultiplicity" = e !! "sourceMultiplicity")
    (aggregation_elems xml) (aggregation_elems xml') →
  match ModelParser.new xml, ModelParser.new xml' with
  | Ok p, Ok p' => ModelParser.classes p' = ModelParser.classes p
  | Raise x, Raise x' => x' = x
  | _, _ => False
  end.
Proof.
  intros Hces Haggs. rewrite !new_unfold, Hces.
  rewrite (link_loop_ext
             (ModelParser.parse_aggregation <$> aggregation_elems xml)
             (ModelParser.parse_aggregation <$> aggregation_elems xml')).
  - by destruct (for_each _ _ _).
  - apply Forall2_fmap. eapply Forall2_impl; [exact Haggs|].
    intros e e' (Hs & Ht & Hm). cbn. unfold get. by rewrite Hs, Ht, Hm.
Qed.

Lemma target_multiplicity_unused_witness :
  match ModelParser.new sample_xml,
        ModelParser.new
          {| class_elems := class_elems sample_xml;
             aggregation_elems :=
               <["targetMultiplicity" := "7..9..11"]>
                 <$> aggregation_elems sample_xml |} with
  | Ok p, Ok p' => ModelParser.classes p' = ModelParser.classes p
  | Raise x, Raise x' => x' = x
  | _, _ => False
  end.
Proof.
  apply target_multiplicity_unused; [reflexivity|].
  repeat constructor.
Defined.

Lemma sum_list_indicator (ks : list ref) (x : ref) :
  NoDup ks → x ∈ ks →
  sum_list ((λ k, if decide (x = k) then 1 else 0) <$> ks) = 1.
Proof.
  induction ks as [|k ks IH]; [by intros _ ?%elem_of_nil|].
  intros [Hk Hnd]%NoDup_cons Hin. rewrite fmap_cons. cbn [sum_list].
  destruct (decide (x = k)) as [->|Hne].
  - assert (sum_list ((λ k0, if decide (k = k0) then 1 else 0) <$> ks) = 0)
      as ->; [|done].
    clear IH Hnd Hin. induction ks as [|k' ks IH]; [done|].
    apply not_elem_of_cons in Hk as [? ?]. rewrite fmap_cons. cbn [sum_list].
    rewrite decide_False by done. by apply IH.
  - apply elem_of_cons in Hin as [?|Hin]; [done|]. by rewrite IH.
Qed.

Lemma sum_list_targets (ks : list ref) (aggs : list Aggregation) :
  NoDup ks → (∀ a, a ∈ aggs → target a ∈ ks) →
  sum_list ((λ k, length (filter (λ a, target a = k) aggs)) <$> ks) =
  length aggs.
Proof.
  intros Hnd. induction aggs as [|a aggs IH]; intros Hall.
  - cbn. clear Hnd Hall. by induction ks.
  - assert (sum_list
              ((λ k, length (filter (λ a0, target a0 = k) (a :: aggs))) <$> ks) =
            sum_list ((λ k, if decide (target a = k) then 1 else 0) <$> ks) +
            sum_list ((λ k, length (filter (λ a0, target a0 = k) aggs)) <$> ks))
      as ->.
    { clear. induction ks as [|k ks IHks]; [done|].
      rewrite !fmap_cons. cbn [sum_list]. rewrite IHks, filter_cons.
      destruct (decide (target a = k)); cbn [length]; unfold id; lia. }
    rewrite sum_list_indicator by (done || apply Hall; by left).
    rewrite IH by (intros; apply Hall; by right). done.
Qed.

(** Every edge adds exactly one child: in a built model the children lists
    of all classes together hold as many entries as there are
    [Aggregation] elements. *)
Theorem one_child_per_edge (xml : Document) (p : ModelParser.t) :
  ModelParser.new xml = Ok p →
  sum_list ((λ kv, length (ClassInfo.children kv.2))
              <$> ModelParser.classes p) =
  length (aggregation_elems xml).
Proof.
  intros Hnew. pose proof (new_wf _ _ Hnew) as Hwf.
  destruct (new_Ok_inv _ _ Hnew) as [Haggs Hloop].
  apply link_loop in Hloop as (Hkeys & Hall & Hget).
  rewrite <- (length_fmap ModelParser.parse_aggregation), <- Haggs.
  rewrite <- (sum_list_targets (ModelParser.classes p).*1
                (ModelParser.aggregations p)); cycle 1.
  { apply Hwf. }
  { intros a Ha. rewrite Hkeys. by apply Hall. }
  rewrite <- list_fmap_compose. f_equal. apply list_fmap_ext.
  intros i [k o] Hi%list_elem_of_lookup_2. cbn.
  assert (dict_get k (ModelParser.classes p) = Some o) as Ho
    by (apply dict_get_NoDup; [apply Hwf|done]).
  destruct (Hget k o Ho) as (o0 & Ho0 & Hl).
  rewrite (linked_children _ _ _ _ Hl).
  rewrite parse_classes_lookup in Ho0.
  apply fmap_Some in Ho0 as (ce & _ & ->). cbn. by rewrite length_fmap.
Qed.

Lemma one_child_per_edge_witness :
  sum_list ((λ kv, length (ClassInfo.children kv.2))
              <$> ModelParser.classes sample_model) = 2.
Proof. exact (one_child_per_edge sample_xml sample_model sample_model_built). Defined.

(** A class that an edge contains in itself cannot be rendered: in a built
    model with an [Aggregation] whose source and target are the same class,
    rendering that class raises [RecursionError] at every recursion
    limit. *)
Theorem self_containment_never_renders (xml : Document) (p : ModelParser.t)
    (e : xml_attrib) (limit : nat) :
  ModelParser.new xml = Ok p →
  e ∈ aggregation_elems xml →
  e !! "source" = e !! "target" →
  ConfigXMLGenerator.generate limit (ModelParser.classes p) (e !! "source") =
  Raise RecursionError.
Proof.
  intros Hnew He Hself. pose proof (new_wf _ _ Hnew) as Hwf.
  destruct (new_Ok_inv _ _ Hnew) as [Haggs Hloop].
  apply link_loop in Hloop as (Hkeys & Hall & Hget).
  assert (ModelParser.parse_aggregation e ∈ ModelParser.aggregations p) as Ha
    by (rewrite Haggs; by apply list_elem_of_fmap_2).
  apply generate_cycle; [apply Hwf|].
  exists (e !! "source"). split; [reflexivity|]. apply tc_once.
  destruct (Hall _ Ha) as (Hs & _ & _). cbn in Hs. rewrite <- Hkeys in Hs.
  apply dict_get_is_Some in Hs as [o Ho]. exists o. split; [done|].
  destruct (Hget _ _ Ho) as (o0 & _ & Hl).
  rewrite (linked_children _ _ _ _ Hl). apply elem_of_app. right.
  apply (list_elem_of_fmap_2' _ _ (ModelParser.parse_aggregation e));
    [|done].
  apply list_elem_of_filter. split; [|done]. cbn. unfold get. by rewrite Hself.
Qed.

Lemma self_model_built : ModelParser.new self_xml = Ok self_model.
Proof. vm_compute. reflexivity. Qed.

Lemma self_containment_never_renders_witness :
  ConfigXMLGenerator.generate 1000 (ModelParser.classes self_model)
    (Some "A") = Raise RecursionError.
Proof.
  apply (self_containment_never_renders self_xml self_model
           (sample_edge "A" "A" "1") 1000 self_model_built).
  - by left.
  - reflexivity.
Defined.

(** ** Rendering, further *)

Lemma for_each_ext {A S : Type} (body body' : S → A → outcome S)
    (xs : list A) (s : S) :
  (∀ s x, x ∈ xs → body s x = body' s x) →
  for_each body xs s = for_each body' xs s.
Proof.
  revert s. induction xs as [|x xs IH]; intros s Hext; [done|].
  cbn [for_each]. rewrite Hext by by left.
  destruct (body' s x); cbn [mbind outcome_bind]; [|done].
  apply IH. intros; apply Hext; by right.
Qed.

(** The recursion limit decides whether rendering returns, never what it
    returns. *)
Theorem render_same_at_every_limit (classes : store) (r : ref)
    (limit limit' : nat) (e e' : Element) :
  ConfigXMLGenerator.generate limit classes r = Ok e →
  ConfigXMLGenerator.generate limit' classes r = Ok e' →
  e = e'.
Proof.
  intros He He'. destruct (Nat.le_ge_cases limit limit') as [Hle|Hle].
  - apply (generate_mono_le classes _ _ _ _ Hle) in He. congruence.
  - apply (generate_mono_le classes _ _ _ _ Hle) in He'. congruence.
Qed.

Lemma render_same_at_every_limit_witness :
  ConfigXMLGenerator.generate 2 (ModelParser.classes sample_model)
    (Some "A") = Ok sample_rendering ∧
  ConfigXMLGenerator.generate 5 (ModelParser.classes sample_model)
    (Some "A") = Ok sample_rendering ∧
  sample_rendering = sample_rendering.
Proof.
  assert (ConfigXMLGenerator.generate 2 (ModelParser.classes sample_model)
            (Some "A") = Ok sample_rendering) as H2 by reflexivity.
  assert (ConfigXMLGenerator.generate 5 (ModelParser.classes sample_model)
            (Some "A") = Ok sample_rendering) as H5 by reflexivity.
  split; [exact H2|]. split; [exact H5|].
  exact (render_same_at_every_limit _ _ 2 5 _ _ H2 H5).
Defined.

Lemma attribute_elements (root : Element) (attrs : list Attribute.t) :
  foldl (λ root attr,
      element_append root
        (Elem (Attribute.name attr) (Some (str (Attribute.type attr))) []))
    root attrs =
  match root with
  | Elem tag text subs => Elem tag text (subs ++ (attribute_element <$> attrs))
  end.
Proof.
  revert root. induction attrs as [|a attrs IH]; intros [tag text subs];
    cbn [foldl].
  - cbn. by rewrite app_nil_r.
  - rewrite IH. cbn. by rewrite <- app_assoc.
Qed.

Lemma child_elements (f : ref → outcome Element) (cs : list ref)
    (root e : Element) :
  for_each (λ root child, child_elem ← f child;
                          Ok (element_append root child_elem)) cs root = Ok e →
  ∃ kids,
    Forall2 (λ c kid, f c = Ok kid) cs kids ∧
    e = match root with
        | Elem tag text subs => Elem tag text (subs ++ kids)
        end.
Proof.
  revert root. induction cs as [|c cs IH]; intros [tag text subs];
    cbn [for_each].
  - intros [= <-]. exists []. by rewrite app_nil_r.
  - destruct (f c) as [kid|] eqn:Hc; [|done]. cbn [mbind outcome_bind].
    intros (kids & Hkids & ->)%IH. exists (kid :: kids).
    split; [by constructor|]. cbn. by rewrite <- app_assoc.
Qed.

(** What a rendering looks like: the element is named after the class and
    has no text; it holds one sub-element per attribute, named after the
    attribute, with the attribute's type as text (["None"] when the type is
    missing) and nothing below, followed by the renderings of the children
    in order. *)
Theorem render_shape (classes : store) (r : ref) (limit : nat) (e : Element) :
  ConfigXMLGenerator.generate limit classes r = Ok e →
  ∃ o kids,
    dict_get r classes = Some o ∧
    Forall2 (λ c kid,
        ConfigXMLGenerator.generate (pred limit) classes c = Ok kid)
      (ClassInfo.children o) kids ∧
    e = Elem (ClassInfo.name o) None
          (((λ a, Elem (Attribute.name a)
                    (Some (default "None" (Attribute.type a))) [])
              <$> ClassInfo.attributes o) ++ kids).
Proof.
  destruct limit as [|limit]; [done|]. cbn [ConfigXMLGenerator.generate pred].
  unfold deref. destruct (dict_get r classes) as [o|]; [|done].
  cbn [mbind outcome_bind]. rewrite attribute_elements.
  intros (kids & Hkids & ->)%child_elements. by exists o, kids.
Qed.

Lemma render_shape_witness :
  ∃ o (kids : list Element),
    dict_get (Some "A") (ModelParser.classes sample_model) = Some o ∧
    length kids = length (ClassInfo.children o).
Proof.
  destruct (render_shape _ _ _ _ render_sample) as (o & kids & Ho & Hk & _).
  exists o, kids. split; [exact Ho|]. symmetry. exact (Forall2_length _ _ _ Hk).
Defined.

Lemma same_shape_lookup st st' k :
  same_shape st st' →
  match dict_get k st, dict_get k st' with
  | Some o, Some o' =>
      ClassInfo.name o = ClassInfo.name o' ∧
      ClassInfo.attributes o = ClassInfo.attributes o' ∧
      ClassInfo.children o = ClassInfo.children o'
  | None, None => True
  | _, _ => False
  end.
Proof.
  induction 1 as [|[k1 o1] [k2 o2] st st' (Hk & Hrest) _ IH]; [done|].
  cbn in Hk. subst k2. cbn [dict_get]. by destruct (decide (k1 = k)).
Qed.

(** Rendering reads the names, attributes and children of the classes and
    nothing else: root flags, documentation and bounds do not show in the
    hierarchy document. *)
Theorem render_ignores_bounds (st st' : store) (r : ref) (limit : nat) :
  same_shape st st' →
  ConfigXMLGenerator.generate limit st' r =
  ConfigXMLGenerator.generate limit st r.
Proof.
  intros Hsame. revert r. induction limit as [|limit IH]; intros r; [done|].
  cbn [ConfigXMLGenerator.generate]. unfold deref.
  pose proof (same_shape_lookup st st' r Hsame) as Hr.
  destruct (dict_get r st) as [o|], (dict_get r st') as [o'|]; try done.
  destruct Hr as (Hn & Ha & Hc). cbn [mbind outcome_bind].
  rewrite Hn, Ha, Hc. apply for_each_ext. intros root c _. by rewrite IH.
Qed.

Lemma render_ignores_bounds_witness :
  ConfigXMLGenerator.generate 3 relabelled_classes (Some "A") =
  ConfigXMLGenerator.generate 3 (ModelParser.classes sample_model) (Some "A").
Proof.
  apply render_ignores_bounds. repeat constructor.
Defined.

Lemma get_root_class_bound (p : ModelParser.t) (r : ref) :
  ModelParser.get_root_class p = Ok r → r ∈ (ModelParser.classes p).*1.
Proof.
  unfold ModelParser.get_root_class.
  destruct (find _ _) as [[k o]|] eqn:Hfind; [|done]. intros [= <-].
  apply find_some in Hfind as [Hin%list_elem_of_In _].
  by apply (list_elem_of_fmap_2 fst _ (k, o)).
Qed.

(** Once a model is built and its root found, rendering the root either
    returns or exceeds the recursion limit: it raises no other
    exception. *)
Theorem render_root_outcomes (xml : Document) (p : ModelParser.t) (r : ref)
    (limit : nat) :
  ModelParser.new xml = Ok p →
  ModelParser.get_root_class p = Ok r →
  (∃ e, ConfigXMLGenerator.generate limit (ModelParser.classes p) r = Ok e) ∨
  ConfigXMLGenerator.generate limit (ModelParser.classes p) r =
    Raise RecursionError.
Proof.
  intros Hnew Hroot. apply generate_cases.
  - apply (new_wf _ _ Hnew).
  - by apply get_root_class_bound.
Qed.

Lemma render_root_outcomes_witness :
  (∃ e, ConfigXMLGenerator.generate 1 (ModelParser.classes sample_model)
          (Some "A") = Ok e) ∨
  ConfigXMLGenerator.generate 1 (ModelParser.classes sample_model) (Some "A") =
    Raise RecursionError.
Proof.
  exact (render_root_outcomes sample_xml sample_model (Some "A") 1
           sample_model_built eq_refl).
Defined.

(** ** Metadata, from the document *)

Lemma filter_fmap {A B : Type} (f : A → B) (P : B → Prop)
    `{!∀ y, Decision (P y)} (l : list A) :
  filter P (f <$> l) = f <$> filter (λ x, P (f x)) l.
Proof.
  induction l as [|x l IH]; [done|]. rewrite fmap_cons, !filter_cons.
  destruct (decide (P (f x))); [rewrite fmap_cons|]; by rewrite IH.
Qed.

(** What [meta.json] says of a class, read off the document: its
    parameters are the attributes of the last [Class] element with its
    name, in order, then one parameter of type ["class"] per [Aggregation]
    element whose target is the class, named by the source and in document
    order; its bounds are ["0"] when no [Aggregation] element has the class
    as source. *)
Theorem meta_from_document (xml : Document) (p : ModelParser.t)
    (meta : list MetaJSONGenerator.Entry) (e : MetaJSONGenerator.Entry) :
  ModelParser.new xml = Ok p →
  MetaJSONGenerator.generate (ModelParser.classes p) = Ok meta →
  e ∈ meta →
  ∃ ce,
    last (filter (λ ce, class_attrib ce !! "name" = MetaJSONGenerator.class e)
            (class_elems xml)) = Some ce ∧
    MetaJSONGenerator.parameters e =
      ((λ ae, {| MetaJSONGenerator.name := ae !! "name";
                 MetaJSONGenerator.type := ae !! "type" |})
         <$> attribute_elems ce) ++
      ((λ a, {| MetaJSONGenerator.name := a !! "source";
                MetaJSONGenerator.type := Some "class" |})
         <$> filter (λ a, a !! "target" = MetaJSONGenerator.class e)
               (aggregation_elems xml)) ∧
    match last (filter (λ a, a !! "source" = MetaJSONGenerator.class e)
                  (aggregation_elems xml)) with
    | Some a =>
        parse_multiplicity (a !! "sourceMultiplicity") =
        Ok (MetaJSONGenerator.min e, MetaJSONGenerator.max e)
    | None => MetaJSONGenerator.min e = "0" ∧ MetaJSONGenerator.max e = "0"
    end.
Proof.
  intros Hnew Hgen He. pose proof (new_wf _ _ Hnew) as Hwf.
  rewrite (meta_generate _ Hwf) in Hgen. injection Hgen as <-.
  apply list_elem_of_fmap in He as (o & -> & Ho).
  apply list_elem_of_fmap in Ho as ([k o'] & -> & Hin). cbn [snd].
  assert (dict_get k (ModelParser.classes p) = Some o') as Hget
    by (apply dict_get_NoDup; [apply Hwf|done]).
  destruct (new_Ok_inv _ _ Hnew) as [Haggs Hloop].
  apply link_loop in Hloop as (_ & _ & Hlinked).
  destruct (Hlinked k o' Hget) as (o0 & Ho0 & Hl).
  rewrite parse_classes_lookup in Ho0.
  apply fmap_Some in Ho0 as (ce & Hce & ->).
  cbn [entry_of MetaJSONGenerator.class MetaJSONGenerator.parameters
       MetaJSONGenerator.min MetaJSONGenerator.max].
  rewrite (wf_names _ Hwf k o' Hget). exists ce. split_and!.
  - done.
  - rewrite (linked_attributes _ _ _ _ Hl), (linked_children _ _ _ _ Hl).
    cbn [class_info_of ClassInfo.attributes ClassInfo.children app].
    rewrite Haggs, filter_fmap, <- !list_fmap_compose. done.
  - pose proof (linked_min_max _ _ _ _ Hl) as Hmm.
    rewrite Haggs, filter_fmap, fmap_last in Hmm. cbn in Hmm.
    unfold get in Hmm.
    by destruct (last (filter _ (aggregation_elems xml))).
Qed.

Lemma meta_from_document_witness :
  ∃ ce,
    last (filter (λ ce, class_attrib ce !! "name" = Some "A")
            (class_elems sample_xml)) = Some ce ∧
    MetaJSONGenerator.parameters
      (entry_of (sample_object "A" true [Some "B"; Some "C"] "0" "0")) =
      ((λ ae, {| MetaJSONGenerator.name := ae !! "name";
                 MetaJSONGenerator.type := ae !! "type" |})
         <$> attribute_elems ce) ++
      ((λ a, {| MetaJSONGenerator.name := a !! "source";
                MetaJSONGenerator.type := Some "class" |})
         <$> filter (λ a, a !! "target" = Some "A")
               (aggregation_elems sample_xml)).
Proof.
  destruct (meta_from_document sample_xml sample_model _
              (entry_of (sample_object "A" true [Some "B"; Some "C"] "0" "0"))
              sample_model_built (meta_generate _ sample_wf))
    as (ce & Hce & Hparams & _).
  - by left.
  - exists ce. split; [exact Hce|exact Hparams].
Defined.

(** ** The program *)

Ltac io_simpl :=
  cbv [Main.main Main.require Main.load_model Main.load_json Main.keys
       Main.save_config_xml present mbind io_bind mret io_ret raise lift write
       handle fst snd app].

Ltac io_done :=
  try destruct (main_catches _); by (split; [|split]).

Section main_properties.
Context {V : Type}.
Variable py_eq : V → V → bool.
Variable iter : gset string → list string.
Variable recursion_limit : nat.
Variable pretty_lines : Element → outcome (list string).
Implicit Types (xml : input Document).
Implicit Types (config patched : input (loaded V)).

(** When a required input is absent the run ends in [exit(1)] with the
    missing-file diagnostic and has written nothing, whatever the other
    inputs are. *)
Theorem missing_input_writes_nothing xml config patched :
  present xml = false ∨ present config = false ∨ present patched = false →
  Main.run py_eq iter recursion_limit pretty_lines xml config patched =
  (Exit1 MissingFile, []).
Proof.
  unfold Main.run, Main.main, Main.require.
  destruct xml, config, patched; cbn [present]; intros [?|[?|?]]; done.
Qed.

(** The files are written in the order [config.xml], [meta.json],
    [delta.json], [res_patched_config.json], each at most once and none
    before its predecessors; the run returns only when all four are
    written. *)
Theorem outputs_in_order xml config patched :
  let '(ending, written) :=
    Main.run py_eq iter recursion_limit pretty_lines xml config patched in
  name_of <$> written =
    take (length written)
      [config_xml; meta_json; delta_json; res_patched_config_json] ∧
  (ending = Returned ↔ length written = 4).
Proof.
  unfold Main.run.
  destruct xml as [| |x|doc], config as [| |xc|[c|]],
    patched as [| |xp|[pc|]];
    io_simpl; try io_done.
  all: destruct (ModelParser.new doc) as [p|?]; io_simpl;
    [|io_done].
  all: destruct (ModelParser.get_root_class p) as [r|?]; io_simpl;
    [|io_done].
  all: destruct (ConfigXMLGenerator.generate _ _ r) as [e|?]; io_simpl;
    [|io_done].
  all: destruct (pretty_lines e) as [lines|?]; io_simpl;
    [|io_done].
  all: destruct (MetaJSONGenerator.generate _) as [meta|?]; io_simpl;
    [|io_done].
  all: try io_done.
  destruct (DeltaJSONGenerator.generate py_eq iter c pc) as [delta|?];
    io_simpl; [|io_done].
  destruct (ResPatchedConfigGenerator.generate _ 0 delta) as [[h r']|?];
    io_simpl; [|io_done].
  destruct (h !! r'); io_simpl; io_done.
Qed.

(** A failure up to the rendering of the hierarchy ends the run before
    anything is written.  Only a [ValueError] gets the data-error
    diagnostic: an unknown class in an edge ([KeyError]), an edge without
    [sourceMultiplicity] ([TypeError]), a model without root
    ([StopIteration]) and a containment cycle ([RecursionError]) leave
    [main] uncaught. *)
Theorem early_failure_writes_nothing (doc : Document) config patched
    (x : exn) :
  present config = true → present patched = true →
  ModelParser.new doc = Raise x ∨
  (∃ p, ModelParser.new doc = Ok p ∧
        (ModelParser.get_root_class p = Raise x ∨
         ∃ r, ModelParser.get_root_class p = Ok r ∧
              ConfigXMLGenerator.generate recursion_limit
                (ModelParser.classes p) r = Raise x)) →
  Main.run py_eq iter recursion_limit pretty_lines (Parsed doc) config
    patched =
  (match x with ValueError => Exit1 DataError | _ => Uncaught x end, []).
Proof.
  intros Hc Hp Hfail. unfold Main.run.
  destruct config as [| |?|c]; [done|..];
    (destruct patched as [| |?|pc]; [done|..]).
  all: io_simpl.
  all: destruct Hfail as [->|(p & -> & [->|(r & -> & ->)])]; by destruct x.
Qed.

(** There is no all-or-nothing: when the hierarchy is rendered and
    printed but the two configurations are not both loaded as
    dictionaries, the run ends after [config.xml] and [meta.json] are
    written.  The first configuration that [json.load] does not return
    decides how: [JSONDecodeError] gets the JSON diagnostic, another
    exception the data-error diagnostic when it is a [ValueError] (as
    [UnicodeDecodeError] is) and no clause otherwise; and when both are
    returned but one is no dictionary, the [AttributeError] of its missing
    [keys] leaves [main] uncaught. *)
Theorem bad_json_leaves_two_files (doc : Document) config patched
    (p : ModelParser.t) (r : ref) (root : Element) (lines : list string) :
  ModelParser.new doc = Ok p →
  ModelParser.get_root_class p = Ok r →
  ConfigXMLGenerator.generate recursion_limit (ModelParser.classes p) r =
    Ok root →
  pretty_lines root = Ok lines →
  present config = true → present patched = true →
  (∀ c pc, config = Parsed (Dict c) → patched = Parsed (Dict pc) → False) →
  Main.run py_eq iter recursion_limit pretty_lines (Parsed doc) config
    patched =
  (match config, patched with
   | Malformed, _ | Parsed _, Malformed => Exit1 JsonError
   | Rejected e, _ | Parsed _, Rejected e =>
       if main_catches e then Exit1 DataError else Uncaught e
   | _, _ => Uncaught AttributeError
   end,
   [ConfigXml
      (join newline
         (filter (λ line, String.prefix "<?xml" line = false) lines));
    MetaJson (entry_of <$> (ModelParser.classes p).*2)]).
Proof.
  intros Hnew Hroot Hgen Hlines Hc Hp Hbad. unfold Main.run.
  pose proof (meta_generate _ (new_wf _ _ Hnew)) as Hmeta.
  destruct config as [| |e|[c|]]; [done|..];
    (destruct patched as [| |e'|[pc|]]; [done|..]).
  all: try (exfalso; by apply (Hbad c pc)).
  all: io_simpl; rewrite Hnew, Hroot, Hgen, Hlines, Hmeta; try done.
  all: by destruct (main_catches _).
Qed.

(** A complete run: with the three inputs parsed, the two configurations
    to dictionaries, the model built, its
    root found, rendered and printed, the run returns having written the
    four files: the printed hierarchy without the lines that start with
    ["<?xml"], one metadata record per class, the delta between the two
    configurations, and the result of applying it to the first, which is
    the second configuration when value equality is structural. *)
Theorem complete_run (doc : Document) (c pc : gmap string V)
    (p : ModelParser.t) (r : ref) (root : Element) (lines : list string) :
  (∀ s, iter s ≡ₚ elements s) →
  ModelParser.new doc = Ok p →
  ModelParser.get_root_class p = Ok r →
  ConfigXMLGenerator.generate recursion_limit (ModelParser.classes p) r =
    Ok root →
  pretty_lines root = Ok lines →
  ∃ delta result,
    DeltaJSONGenerator.generate py_eq iter c pc = Ok delta ∧
    Main.run py_eq iter recursion_limit pretty_lines (Parsed doc)
      (Parsed (Dict c)) (Parsed (Dict pc)) =
    (Returned,
     [ConfigXml
        (join newline
           (filter (λ line, String.prefix "<?xml" line = false) lines));
      MetaJson (entry_of <$> (ModelParser.classes p).*2);
      DeltaJson delta;
      ResPatchedJson result]) ∧
    ((∀ a b, py_eq a b = true ↔ a = b) → result = pc).
Proof.
  intros iter_perm Hnew Hroot Hgen Hlines.
  pose proof (meta_generate _ (new_wf _ _ Hnew)) as Hmeta.
  pose proof (diff_generate py_eq iter iter_perm c pc) as Hdiff.
  set (delta := diff_of py_eq iter c pc) in *.
  set (h := ({[ 0 := c; 1 := pc ]} : dict_heap V)).
  assert (h !! 0 = Some c) as Hc by done.
  pose proof (apply_generate h 0 c delta Hc) as Happly.
  exists delta, (apply_spec c delta). split; [done|]. split.
  - unfold Main.run. io_simpl.
    rewrite Hnew, Hroot, Hgen, Hlines, Hmeta, Hdiff. fold h.
    rewrite Happly, lookup_insert_eq. done.
  - intros Hstruct. apply map_eq. intros k.
    apply (apply_diff_lookup py_eq iter iter_perm). intros a b _ _.
    apply Hstruct.
Qed.
End main_properties.

(** ** The further properties at the sample inputs *)

Lemma apply_twice_witness :
  ∃ h1 r1 h2 r2 m,
    ResPatchedConfigGenerator.generate sample_heap 0 inconsistent_delta =
      Ok (h1, r1) ∧
    ResPatchedConfigGenerator.generate h1 r1 inconsistent_delta = Ok (h2, r2) ∧
    r1 ≠ r2 ∧ h2 !! r1 = Some m ∧ h2 !! r2 = Some m.
Proof.
  exact (apply_twice sample_heap 0 sample_base inconsistent_delta eq_refl).
Defined.

Lemma apply_keys_witness :
  ∃ h' r (m : gmap string json),
    ResPatchedConfigGenerator.generate sample_heap 0 inconsistent_delta =
      Ok (h', r) ∧
    h' !! r = Some m ∧ "a" ∈ dom m.
Proof.
  destruct (apply_keys sample_heap 0 sample_base inconsistent_delta eq_refl)
    as (h' & r & m & Hgen & Hm & Hdom).
  exists h', r, m. split; [exact Hgen|]. split; [exact Hm|].
  apply Hdom. right. left. by left.
Defined.

Lemma apply_ignores_from_witness :
  ResPatchedConfigGenerator.generate sample_heap 0
    {| additions := additions inconsistent_delta;
       deletions := deletions inconsistent_delta;
       updates :=
         [{| upd_key := "a"; upd_from := JStr "never there";
             upd_to := JNum 2 |}] |} =
  ResPatchedConfigGenerator.generate sample_heap 0 inconsistent_delta.
Proof. apply apply_ignores_from; reflexivity. Defined.

Lemma diff_buckets_disjoint_witness :
  ∃ delta,
    DeltaJSONGenerator.generate json_eqb elements sample_base sample_patched =
      Ok delta ∧
    ¬ ("a" ∈ add_key <$> additions delta ∧ "a" ∈ deletions delta).
Proof.
  destruct (diff_buckets_disjoint json_eqb elements elements_perm sample_base
              sample_patched) as (delta & Hgen & Hdis).
  exists delta. split; [exact Hgen|exact (proj1 (Hdis "a"))].
Defined.

Lemma diff_empty_iff_witness :
  DeltaJSONGenerator.generate json_eqb elements sample_base sample_base =
  Ok empty_delta.
Proof.
  apply (diff_empty_iff json_eqb elements elements_perm).
  intros k. destruct (sample_base !! k); [apply json_eqb_refl|exact I].
Defined.

Lemma diff_reversed_witness :
  ∃ delta back,
    DeltaJSONGenerator.generate json_eqb elements sample_base sample_patched =
      Ok delta ∧
    DeltaJSONGenerator.generate json_eqb elements sample_patched sample_base =
      Ok back ∧
    ∀ k, k ∈ deletions back ↔ k ∈ add_key <$> additions delta.
Proof.
  destruct (diff_reversed json_eqb elements elements_perm sample_base
              sample_patched) as (delta & back & H1 & H2 & H3 & _).
  exists delta, back. split; [exact H1|]. split; [exact H2|exact H3].
Defined.

Lemma diff_size_balance_witness :
  ∃ delta,
    DeltaJSONGenerator.generate json_eqb elements sample_base sample_patched =
      Ok delta ∧
    size sample_patched + length (deletions delta) =
    size sample_base + length (additions delta).
Proof.
  exact (diff_size_balance json_eqb elements elements_perm sample_base
           sample_patched).
Defined.

Lemma missing_input_writes_nothing_witness :
  Main.run json_eqb elements 1000 sample_pretty_lines (Parsed sample_xml)
    Absent (Parsed (Dict sample_patched)) = (Exit1 MissingFile, []).
Proof. apply missing_input_writes_nothing. right. left. reflexivity. Defined.

Lemma bad_multiplicity_fails :
  ModelParser.new bad_multiplicity_xml = Raise ValueError.
Proof. vm_compute. reflexivity. Qed.

Lemma early_failure_writes_nothing_witness :
  Main.run json_eqb elements 1000 sample_pretty_lines
    (Parsed bad_multiplicity_xml) (Parsed (Dict sample_base))
    (Parsed (Dict sample_patched)) = (Exit1 DataError, []).
Proof.
  apply (early_failure_writes_nothing json_eqb elements 1000
           sample_pretty_lines bad_multiplicity_xml _ _ ValueError);
    [reflexivity..|].
  left. exact bad_multiplicity_fails.
Defined.

Lemma sample_renders :
  ConfigXMLGenerator.generate 1000 (ModelParser.classes sample_model)
    (Some "A") = Ok sample_rendering.
Proof. vm_compute. reflexivity. Qed.

Lemma bad_json_leaves_two_files_witness :
  Main.run json_eqb elements 1000 sample_pretty_lines (Parsed sample_xml)
    (Rejected ValueError) (Parsed (Dict sample_patched)) =
  (Exit1 DataError,
   [ConfigXml
      (join newline
         (filter (λ line, String.prefix "<?xml" line = false)
            ["<?xml version=1.0 ?>"; "<A>"; "  <id>int</id>"; "</A>"]));
    MetaJson (entry_of <$> (ModelParser.classes sample_model).*2)]).
Proof.
  apply (bad_json_leaves_two_files json_eqb elements 1000 sample_pretty_lines
           sample_xml (Rejected ValueError) (Parsed (Dict sample_patched))
           sample_model (Some "A") sample_rendering).
  - exact sample_model_built.
  - reflexivity.
  - exact sample_renders.
  - reflexivity.
  - reflexivity.
  - reflexivity.
  - intros c pc Hc. discriminate Hc.
Defined.

Lemma complete_run_witness :
  ∃ delta,
    Main.run json_eqb elements 1000 sample_pretty_lines (Parsed sample_xml)
      (Parsed (Dict sample_base)) (Parsed (Dict sample_patched)) =
    (Returned,
     [ConfigXml
        (join newline
           (filter (λ line, String.prefix "<?xml" line = false)
              ["<?xml version=1.0 ?>"; "<A>"; "  <id>int</id>"; "</A>"]));
      MetaJson (entry_of <$> (ModelParser.classes sample_model).*2);
      DeltaJson delta;
      ResPatchedJson sample_patched]).
Proof.
  destruct (complete_run json_eqb elements 1000 sample_pretty_lines
              sample_xml sample_base sample_patched sample_model (Some "A")
              sample_rendering _ elements_perm sample_model_built eq_refl
              sample_renders eq_refl)
    as (delta & result & _ & Hrun & Hstruct).
  exists delta. rewrite (Hstruct json_eqb_spec) in Hrun. exact Hrun.
Defined.
